(** * The cat-tree greeting scene: a shallow embedding and its properties

    Sources embedded here:
    - [src/components/CatTreeScene.tsx]: [PeelRibbon] (clay wobble),
      [CalicoCat] (click handler and per-frame animator), [RotatingTree],
      [DriftingSnow];
    - [src/unnamed/part_000] (the [App] component): the autoplay effect and
      [toggleMusic].

    Conventions of the embedding.
    - A JavaScript number is an ideal real ([R]); rounding of IEEE doubles
      is not modelled.  Timer delays and deadlines are integer milliseconds
      ([Z]).
    - A React ref ([useRef<T>(null)]) is an [option]: [None] is the [null]
      of an unmounted node, and every [if (ref.current)] guard of the source
      is a [match] on it.
    - [Math.random()] is a stream [nat -> R] read through a cursor that the
      code advances by one at each call.
    - The host pieces the source calls but does not define
      ([THREE.MathUtils.lerp], [Color.lerp], [setTimeout]/[clearTimeout],
      promises) are written out after their documented behaviour. *)

From Stdlib Require Import Reals Lra Lia ZArith List Bool String.
Import ListNotations.

Open Scope R_scope.

(* ================================================================== *)
(** * Part I: definitions                                              *)
(* ================================================================== *)

(** ** The three.js values the scene touches *)
Module THREE.

Record Vector3 : Type := mkVector3 { x : R; y : R; z : R }.

(** An Euler rotation carries three angles; the order tag is constant
    in this program and left out. *)
Definition Euler : Type := Vector3.

Record Color : Type := mkColor { r : R; g : R; b : R }.

Record Object3D : Type := mkObject3D
  { position : Vector3; rotation : Euler; scale : Vector3 }.

Record Material : Type := mkMaterial { color : Color; opacity : R }.

Record Mesh : Type := mkMesh { object : Object3D; material : Material }.

Definition origin : Vector3 := mkVector3 0 0 0.
Definition ones : Vector3 := mkVector3 1 1 1.

(** [v.setScalar(s)] *)
Definition setScalar (s : R) : Vector3 := mkVector3 s s s.

Definition set_y (v : Vector3) (a : R) : Vector3 := mkVector3 (x v) a (z v).
Definition set_z (v : Vector3) (a : R) : Vector3 := mkVector3 (x v) (y v) a.

Definition with_position (o : Object3D) (p : Vector3) : Object3D :=
  mkObject3D p (rotation o) (scale o).
Definition with_rotation (o : Object3D) (e : Euler) : Object3D :=
  mkObject3D (position o) e (scale o).
Definition with_scale (o : Object3D) (s : Vector3) : Object3D :=
  mkObject3D (position o) (rotation o) s.

Module MathUtils.
(** [lerp(x, y, t) = (1 - t) * x + t * y] *)
Definition lerp (x y t : R) : R := (1 - t) * x + t * y.
End MathUtils.

(** A smoothing step from [before] to [after] does not overshoot the
    target [T]: [after] lies between [before] and [T], and is no
    farther from [T] than [before] was. *)
Definition approaches (before after T : R) : Prop :=
  Rmin before T <= after <= Rmax before T /\
  Rabs (after - T) <= Rabs (before - T).

(** [c.lerp(d, alpha)]: each channel moves by [(d - c) * alpha]. *)
Definition Color_lerp (c d : Color) (alpha : R) : Color :=
  mkColor (r c + (r d - r c) * alpha)
          (g c + (g d - g c) * alpha)
          (b c + (b d - b c) * alpha).

End THREE.

(** ** The host's timer table ([setTimeout] / [clearTimeout]) *)
Module Host.

(** The only callback this program ever schedules is
    [() => setIsBlushing(false)]. *)
Inductive Callback : Type := SetIsBlushing (v : bool).

Record Timer : Type := mkTimer
  { handle : nat; deadline : Z; callback : Callback }.

(** [clock] is the current time in ms; handles are issued from
    [nextHandle], which starts at 1 (a timer handle is a positive
    integer); [queue] is kept in firing order. *)
Record Timers : Type := mkTimers
  { clock : Z; nextHandle : nat; queue : list Timer }.

Definition boot : Timers := mkTimers 0 1 [].

(** Insert after every timer that is due no later. *)
Fixpoint enqueue (t : Timer) (q : list Timer) : list Timer :=
  match q with
  | [] => [t]
  | u :: q' =>
      if (deadline u <=? deadline t)%Z then u :: enqueue t q' else t :: q
  end.

Definition setTimeout (cb : Callback) (ms : Z) (h : Timers) : nat * Timers :=
  let id := nextHandle h in
  (id, mkTimers (clock h) (S id)
         (enqueue (mkTimer id (clock h + ms) cb) (queue h))).

(** Clearing a handle that is not pending does nothing. *)
Definition clearTimeout (id : nat) (h : Timers) : Timers :=
  mkTimers (clock h) (nextHandle h)
    (filter (fun u => negb (Nat.eqb (handle u) id)) (queue h)).

End Host.

(** ** [CalicoCat] *)
Module CalicoCat.
Import THREE.

(** The five group refs, the two cheek refs, the [currentBlush] ref, the
    [isBlushing] state and the [blushTimeoutRef] of one mounted cat. *)
Record Cat : Type := mkCat
  { headRef : option Object3D;
    bodyRef : option Object3D;
    tailRef : option Object3D;
    leftArmRef : option Object3D;
    rightArmRef : option Object3D;
    leftCheekRef : option Mesh;
    rightCheekRef : option Mesh;
    currentBlush : R;
    isBlushing : bool;
    blushTimeoutRef : option nat }.

Definition setIsBlushing (v : bool) (c : Cat) : Cat :=
  mkCat (headRef c) (bodyRef c) (tailRef c) (leftArmRef c) (rightArmRef c)
        (leftCheekRef c) (rightCheekRef c) (currentBlush c) v
        (blushTimeoutRef c).

Definition set_blushTimeoutRef (h : option nat) (c : Cat) : Cat :=
  mkCat (headRef c) (bodyRef c) (tailRef c) (leftArmRef c) (rightArmRef c)
        (leftCheekRef c) (rightCheekRef c) (currentBlush c) (isBlushing c)
        h.

(** What the frame callback reads from the renderer:
    [state.clock.elapsedTime] and [state.pointer]. *)
Record RootState : Type := mkRootState
  { elapsedTime : R; pointer_x : R; pointer_y : R }.

(** A cat and the timer table it schedules on. *)
Record World : Type := mkWorld { cat : Cat; timers : Host.Timers }.

(** The click event: only [stopPropagation] is used. *)
Record Event : Type := mkEvent { propagationStopped : bool }.

(** [if (blushTimeoutRef.current)]: [null] and [0] are falsy. *)
Definition truthy (h : option nat) : bool :=
  match h with
  | Some (S _) => true
  | _ => false
  end.

(** [if (blushTimeoutRef.current) clearTimeout(blushTimeoutRef.current)] *)
Definition clear_pending (ref : option nat) (h : Host.Timers) : Host.Timers :=
  match ref with
  | Some id => if truthy ref then Host.clearTimeout id h else h
  | None => h
  end.

Definition handleHeadClick (e : Event) (w : World) : Event * World :=
  let e' := mkEvent true in
  let c1 := setIsBlushing true (cat w) in
  let h1 := clear_pending (blushTimeoutRef c1) (timers w) in
  let '(id, h2) := Host.setTimeout (Host.SetIsBlushing false) 2000 h1 in
  (e', mkWorld (set_blushTimeoutRef (Some id) c1) h2).

(** At most one timer is pending, and when one is, [blushTimeoutRef]
    holds its (truthy) handle. *)
Definition one_pending (w : World) : Prop :=
  (1 <= Host.nextHandle (timers w))%nat /\
  (Host.queue (timers w) = [] \/
   exists id d cb,
     Host.queue (timers w) = [Host.mkTimer id d cb] /\
     blushTimeoutRef (cat w) = Some id /\ (1 <= id)%nat).

(** The flag is up exactly while a timer is pending, and that timer is
    the one [blushTimeoutRef] names and will take the flag down. *)
Definition flag_matches_timer (w : World) : Prop :=
  (isBlushing (cat w) = false /\ Host.queue (timers w) = []) \/
  (isBlushing (cat w) = true /\
   exists id d,
     Host.queue (timers w) = [Host.mkTimer id d (Host.SetIsBlushing false)] /\
     blushTimeoutRef (cat w) = Some id).

Definition run_callback (cb : Host.Callback) (c : Cat) : Cat :=
  match cb with
  | Host.SetIsBlushing v => setIsBlushing v c
  end.

(** Fire, in queue order, every timer due at time [t]. *)
Fixpoint fire_due (t : Z) (q : list Host.Timer) (c : Cat)
  : list Host.Timer * Cat :=
  match q with
  | [] => ([], c)
  | u :: q' =>
      if (Host.deadline u <=? t)%Z
      then fire_due t q' (run_callback (Host.callback u) c)
      else (q, c)
  end.

(** Let the host clock reach [t]. *)
Definition advance (t : Z) (w : World) : World :=
  let '(q, c) := fire_due t (Host.queue (timers w)) (cat w) in
  mkWorld c (Host.mkTimers t (Host.nextHandle (timers w)) q).

Definition click (w : World) : World :=
  snd (handleHeadClick (mkEvent false) w).

(** Clicks at the listed times, in list order. *)
Fixpoint clicks_at (ts : list Z) (w : World) : World :=
  match ts with
  | [] => w
  | t :: ts' => clicks_at ts' (click (advance t w))
  end.

(** What can happen to a mounted cat between frames: a click on the
    head, or time passing on the host clock. *)
Inductive Input : Type :=
| Click
| Advance (t : Z).

Fixpoint run (ins : list Input) (w : World) : World :=
  match ins with
  | [] => w
  | Click :: ins' => run ins' (click w)
  | Advance t :: ins' => run ins' (advance t w)
  end.

Section Animator.
(** [new THREE.Color("#ffb7b2")] and [new THREE.Color("#ff80ab")]; the
    conversion of the hex literals is the library's and no property
    below depends on it. *)
Variables baseColor flushColor : Color.

Definition head_frame (st : RootState) (h : Object3D) : Object3D :=
  let t := elapsedTime st in
  let baseRotY := sin (t * 1) * 0.1 in
  let baseRotZ := sin (t * 2) * 0.05 in
  let mouseX := pointer_x st * 0.6 in
  let mouseY := pointer_y st * 0.3 in
  let ry := MathUtils.lerp (y (rotation h)) (baseRotY + mouseX) 0.1 in
  let rx := MathUtils.lerp (x (rotation h)) (- mouseY) 0.1 in
  with_rotation h (mkVector3 rx ry baseRotZ).

Definition body_frame (t : R) (bd : Object3D) : Object3D :=
  let bd1 := with_position bd
               (set_y (position bd) (-1.8 + sin (t * 2) * 0.03)) in
  with_rotation bd1 (set_z (rotation bd1) (sin (t * 1.5) * 0.04)).

Definition tail_frame (t : R) (tl : Object3D) : Object3D :=
  with_rotation tl
    (mkVector3 (-0.5 + sin (t * 5) * 0.05) (sin (t * 3) * 0.3)
               (z (rotation tl))).

Definition leftArm_frame (t : R) (a : Object3D) : Object3D :=
  with_rotation a (set_z (rotation a) (2.5 + sin (t * 2.5) * 0.15)).

Definition targetBlush (blushing : bool) : R :=
  if blushing then 1 else 0.

(** [currentBlush.current = lerp(currentBlush.current, targetBlush,
    delta * 3.0)] *)
Definition blush_frame (blushing : bool) (delta cur : R) : R :=
  MathUtils.lerp cur (targetBlush blushing) (delta * 3.0).

Definition cheek_frame (blush : R) (m : Mesh) : Mesh :=
  let blushScale := 1.0 + blush * 0.2 in
  let blushOpacity := 0.2 + blush * 0.6 in
  let currentColor := Color_lerp baseColor flushColor blush in
  mkMesh (with_scale (object m) (setScalar blushScale))
         (mkMaterial currentColor blushOpacity).

(** The callback passed to [useFrame]. *)
Definition useFrame (st : RootState) (delta : R) (c : Cat) : Cat :=
  let t := elapsedTime st in
  let blush := blush_frame (isBlushing c) delta (currentBlush c) in
  mkCat (option_map (head_frame st) (headRef c))
        (option_map (body_frame t) (bodyRef c))
        (option_map (tail_frame t) (tailRef c))
        (option_map (leftArm_frame t) (leftArmRef c))
        (rightArmRef c)
        (option_map (cheek_frame blush) (leftCheekRef c))
        (option_map (cheek_frame blush) (rightCheekRef c))
        blush
        (isBlushing c)
        (blushTimeoutRef c).

(** What the two lerped head angles are pulled towards in a frame:
    [-mouseY] for [rotation.x], [baseRotY + mouseX] for [rotation.y]. *)
Definition head_target_x (st : RootState) : R := - (pointer_y st * 0.3).
Definition head_target_y (st : RootState) : R :=
  sin (elapsedTime st * 1) * 0.1 + pointer_x st * 0.6.

(** The head alone over a run of frames. *)
Fixpoint head_frames (sts : list RootState) (h : Object3D) : Object3D :=
  match sts with
  | [] => h
  | st :: sts' => head_frames sts' (head_frame st h)
  end.

(** One frame per element of [fs]; each carries what the renderer
    hands to the callback. *)
Fixpoint frames (fs : list (RootState * R)) (c : Cat) : Cat :=
  match fs with
  | [] => c
  | (st, delta) :: fs' => frames fs' (useFrame st delta c)
  end.

(** The blush scalar alone over a run of frames; each frame carries
    the [isBlushing] value its render saw and its [delta]. *)
Fixpoint blush_run (fs : list (bool * R)) (cur : R) : R :=
  match fs with
  | [] => cur
  | (blushing, delta) :: fs' =>
      blush_run fs' (blush_frame blushing delta cur)
  end.

(** The nodes as the JSX of [CalicoCat] constructs them. *)
Definition group (p : Vector3) (e : Euler) : Object3D :=
  mkObject3D p e ones.

Definition cheek (p : Vector3) : Mesh :=
  mkMesh (group p origin) (mkMaterial baseColor 0.4).

Definition mounted : Cat :=
  mkCat (Some (group (mkVector3 0 1.35 0) origin))
        (Some (group (mkVector3 0 (-1.8) 0) origin))
        (Some (group (mkVector3 0 0.3 (-0.6)) (mkVector3 (-0.5) 0 0)))
        (Some (group (mkVector3 0.6 0.8 0) (mkVector3 0 0 2.5)))
        (Some (group (mkVector3 (-0.7) 0.6 0.3) (mkVector3 0 0 (-2.0))))
        (Some (cheek (mkVector3 (-0.45) (-0.05) (-0.05))))
        (Some (cheek (mkVector3 0.45 (-0.05) (-0.05))))
        0 false None.

Definition mount : World := mkWorld mounted Host.boot.

End Animator.

End CalicoCat.

(** ** [RotatingTree] *)
Module RotatingTree.
Import THREE.

(** The [<group ref={ref}>] as constructed: no transform. *)
Definition group : Object3D := mkObject3D origin origin ones.

(** [if (ref.current) ref.current.rotation.y += delta * 0.15] *)
Definition useFrame (delta : R) (ref : option Object3D) : option Object3D :=
  match ref with
  | Some o =>
      Some (with_rotation o
              (set_y (rotation o) (y (rotation o) + delta * 0.15)))
  | None => None
  end.

Fixpoint frames (deltas : list R) (ref : option Object3D) : option Object3D :=
  match deltas with
  | [] => ref
  | d :: ds => frames ds (useFrame d ref)
  end.

(** Total time covered by a run of frames. *)
Fixpoint elapsed (deltas : list R) : R :=
  match deltas with
  | [] => 0
  | d :: ds => d + elapsed ds
  end.

(** Two angles that differ by whole turns. *)
Definition congruent_mod_2PI (a c : R) : Prop :=
  exists k : Z, a = c + IZR k * (2 * PI).

End RotatingTree.

(** ** [DriftingSnow] *)
Module DriftingSnow.
Import THREE.

Record Particle : Type := mkParticle
  { position : Vector3; speed : R; driftOffset : R; scale : R }.

(** What [dummy.updateMatrix()] composes and [setMatrixAt] stores for
    one instance. *)
Record Instance : Type := mkInstance
  { i_position : Vector3; i_scale : Vector3; i_rotation : Euler }.

Record InstancedMesh : Type := mkInstancedMesh
  { instanceMatrix : list Instance; needsUpdate : bool }.

(** A computation that may call [Math.random()]: it reads the stream
    from a cursor and returns the cursor it stopped at. *)
Definition Rand (A : Type) : Type := (nat -> R) -> nat -> A * nat.

Definition ret {A : Type} (a : A) : Rand A := fun _ n => (a, n).

Definition bind {A B : Type} (m : Rand A) (k : A -> Rand B) : Rand B :=
  fun rnd n => let '(a, n') := m rnd n in k a rnd n'.

Definition Math_random : Rand R := fun rnd n => (rnd n, S n).

Notation "x <- m ;; k" := (bind m (fun x => k))
  (at level 61, m at next level, right associativity).

(** A storage write past the end of the instance buffer is dropped. *)
Fixpoint setMatrixAt (i : nat) (m : Instance) (l : list Instance)
  : list Instance :=
  match l, i with
  | [], _ => []
  | _ :: l', O => m :: l'
  | a :: l', S i' => a :: setMatrixAt i' m l'
  end.

(** The body of the [forEach] callback, up to the reset. *)
Definition move (time : R) (p : Particle) : Rand Particle :=
  let y1 := y (position p) - speed p in
  let driftX := sin (time * 0.5 + driftOffset p) * 0.02 in
  let driftZ := cos (time * 0.3 + driftOffset p) * 0.02 in
  let x1 := x (position p) + driftX in
  let z1 := z (position p) + driftZ in
  if Rlt_dec y1 (-3) then
    rx <- Math_random ;;
    rz <- Math_random ;;
    ret (mkParticle (mkVector3 ((rx - 0.5) * 15) 10 ((rz - 0.5) * 15))
                    (speed p) (driftOffset p) (scale p))
  else
    ret (mkParticle (mkVector3 x1 y1 z1)
                    (speed p) (driftOffset p) (scale p)).

Definition instance_of (time : R) (p : Particle) : Instance :=
  mkInstance (position p) (setScalar (scale p))
             (mkVector3 (time + driftOffset p) (time * 0.5) 0).

(** [particles.forEach((p, i) => ...)], from index [i] on. *)
Fixpoint forEach (time : R) (i : nat) (ps : list Particle)
                 (buf : list Instance)
  : Rand (list Particle * list Instance) :=
  match ps with
  | [] => ret ([], buf)
  | p :: ps' =>
      p' <- move time p ;;
      rest <- forEach time (S i) ps'
                (setMatrixAt i (instance_of time p') buf) ;;
      ret (p' :: fst rest, snd rest)
  end.

(** Where a recycled particle may land on either horizontal axis:
    [(Math.random() - 0.5) * 15] with [Math.random()] in [[0, 1)]. *)
Definition in_spawn_range (v : R) : Prop := -7.5 <= v < 7.5.

(** [p'] is [p] one frame later: same speed, and either fallen by
    [speed] or, when that would be below [-3], put back at height [10]
    with both horizontal coordinates drawn afresh, that is, from the
    stream at or after the cursor [n] the frame started with. *)
Definition recycled_or_fallen (rnd : nat -> R) (n : nat)
    (p p' : Particle) : Prop :=
  speed p' = speed p /\
  ((~ y (position p) - speed p < -3 /\
    y (position p') = y (position p) - speed p)
   \/
   (y (position p) - speed p < -3 /\
    y (position p') = 10 /\
    (exists k : nat,
       (n <= k)%nat /\
       x (position p') = (rnd k - 0.5) * 15 /\
       z (position p') = (rnd (S k) - 0.5) * 15) /\
    in_spawn_range (x (position p')) /\
    in_spawn_range (z (position p')))).

Record Snow : Type := mkSnow
  { mesh : option InstancedMesh; particles : list Particle }.

(** The callback passed to [useFrame]; [time] is
    [state.clock.getElapsedTime()]. *)
Definition useFrame (time : R) (s : Snow) : Rand Snow :=
  match mesh s with
  | None => ret s
  | Some m =>
      out <- forEach time 0 (particles s) (instanceMatrix m) ;;
      ret (mkSnow (Some (mkInstancedMesh (snd out) true)) (fst out))
  end.

(** One element of [new Array(count).fill(0).map(() => ...)]: six draws,
    in the order the object literal evaluates them. *)
Definition spawn_particle : Rand Particle :=
  rx <- Math_random ;;
  ry <- Math_random ;;
  rz <- Math_random ;;
  rs <- Math_random ;;
  rd <- Math_random ;;
  rc <- Math_random ;;
  ret (mkParticle
         (mkVector3 ((rx - 0.5) * 15) (ry * 12 + 2) ((rz - 0.5) * 15))
         (0.01 + rs * 0.04) (rd * PI * 2) (0.2 + rc * 0.4)).

Fixpoint spawn (count : nat) : Rand (list Particle) :=
  match count with
  | O => ret []
  | S c =>
      p <- spawn_particle ;;
      ps <- spawn c ;;
      ret (p :: ps)
  end.

(** One frame per element of [times]. *)
Fixpoint frames (times : list R) (s : Snow) : Rand Snow :=
  match times with
  | [] => ret s
  | t :: ts => s' <- useFrame t s ;; frames ts s'
  end.

(** One particle followed over a run of frames. *)
Fixpoint fall (times : list R) (p : Particle) : Rand Particle :=
  match times with
  | [] => ret p
  | t :: ts => p' <- move t p ;; fall ts p'
  end.

(** The ranges a particle is created in, with the height range widened
    to what the frames keep: never below the floor [-3], never at or
    above the highest start [14]. *)
Definition in_flight (p : Particle) : Prop :=
  -3 <= y (position p) < 14 /\
  0.01 <= speed p < 0.05 /\
  0 <= driftOffset p < 2 * PI /\
  0.2 <= scale p < 0.6.

End DriftingSnow.

(** ** [RibbonDecoration] *)
Module RibbonDecoration.
Import THREE.

(** [Vector3] methods used to place a decoration. *)
Definition length (v : Vector3) : R :=
  sqrt (x v * x v + y v * y v + z v * z v).

Definition multiplyScalar (v : Vector3) (s : R) : Vector3 :=
  mkVector3 (x v * s) (y v * s) (z v * s).

Definition divideScalar (v : Vector3) (s : R) : Vector3 :=
  multiplyScalar v (1 / s).

(** [divideScalar(length() || 1)]: a zero vector is divided by 1. *)
Definition normalize (v : Vector3) : Vector3 :=
  divideScalar v (if Req_dec_T (length v) 0 then 1 else length v).

Definition add (a c : Vector3) : Vector3 :=
  mkVector3 (x a + x c) (y a + y c) (z a + z c).

(** [new THREE.Vector3(point.x, 0, point.z).normalize()] *)
Definition offsetDir (point : Vector3) : Vector3 :=
  normalize (mkVector3 (x point) 0 (z point)).

(** [point.clone().add(offsetDir.multiplyScalar(0.22))]; the second
    component is [offsetDir] as the in-place [multiplyScalar] leaves it. *)
Definition place (point : Vector3) : Vector3 * Vector3 :=
  let dir := multiplyScalar (offsetDir point) 0.22 in
  (add point dir, dir).

Definition pos (point : Vector3) : Vector3 := fst (place point).

(** Distance of a point from the vertical axis. *)
Definition horizontal_radius (v : Vector3) : R :=
  sqrt (x v * x v + z v * z v).

(** The callback passed to [useFrame]; [time] is
    [state.clock.elapsedTime] and [phase] the memoised [randomPhase]
    ([Math.random() * 100]). *)
Definition useFrame (phase time : R) (groupRef : option Object3D)
  : option Object3D :=
  match groupRef with
  | Some g =>
      let swingX := sin (time * 2.5 + phase) * 0.15 in
      let swingZ := cos (time * 2.0 + phase) * 0.1 in
      Some (with_rotation g (mkVector3 swingX (y (rotation g)) swingZ))
  | None => None
  end.

Fixpoint frames (phase : R) (times : list R) (groupRef : option Object3D)
  : option Object3D :=
  match times with
  | [] => groupRef
  | t :: ts => frames phase ts (useFrame phase t groupRef)
  end.

End RibbonDecoration.

(** ** [PeelRibbon]: the clay wobble *)
Module PeelRibbon.
Import THREE.

(** A ribbon mesh: the position attribute of its geometry (with its
    [needsUpdate] flag), the vertex normals, and [userData.distorted]. *)
Record RibbonMesh : Type := mkRibbonMesh
  { positions : list Vector3;
    normals : list Vector3;
    needsUpdate : bool;
    distorted : bool }.

(** One pass of the loop body; the three noises are read before any
    coordinate is written. *)
Definition wobble (v : Vector3) : Vector3 :=
  let noiseX := sin (y v * 3.0) * 0.03 in
  let noiseZ := cos (y v * 4.5) * 0.03 in
  let thicknessNoise := sin (y v * 10 + x v * 5) * 0.01 in
  mkVector3 (x v + noiseX) (y v + thicknessNoise) (z v + noiseZ).

Section WithNormals.
(** [geo.computeVertexNormals()], a function of the positions (the
    index buffer never changes). *)
Variable computeVertexNormals : list Vector3 -> list Vector3.

Definition applyClayDistortion (mesh : option RibbonMesh)
  : option RibbonMesh :=
  match mesh with
  | None => None
  | Some m =>
      if distorted m then Some m
      else
        let pos := map wobble (positions m) in
        Some (mkRibbonMesh pos (computeVertexNormals pos) true true)
  end.

(** [n] calls in a row on the same ref. *)
Fixpoint apply_times (n : nat) (mesh : option RibbonMesh)
  : option RibbonMesh :=
  match n with
  | O => mesh
  | S n' => apply_times n' (applyClayDistortion mesh)
  end.
End WithNormals.

(** The control points of the ribbon's spine.  The loop runs
    [i = 0 .. steps] with [t = i / steps]; [steps] is the literal 60 of
    [CatTreeScene.tsx] (100 in the earlier revision). *)
Definition loops : R := 3.5.
Definition startY : R := 3.5.
Definition endY : R := -1.0.

Definition spine_point (steps i : nat) : Vector3 :=
  let t := INR i / INR steps in
  let angle := t * PI * 2 * loops in
  let r := 0.5 + t * 2.2 in
  mkVector3 (cos angle * r) (startY - t * (startY - endY)) (sin angle * r).

Definition spine_points (steps : nat) : list Vector3 :=
  map (spine_point steps) (seq 0 (S steps)).

(** Distance of a point from the vertical axis, squared. *)
Definition radius2 (v : Vector3) : R := x v * x v + z v * z v.

End PeelRibbon.

(** ** [App]: background music *)
Module App.

Record HTMLAudioElement : Type := mkAudio { volume : R; paused : bool }.

(** How a promise settled. *)
Inductive Settled (A : Type) : Type :=
| Fulfilled (a : A)
| Rejected (reason : string).
Arguments Fulfilled {A} a.
Arguments Rejected {A} reason.

(** What [audio.play()] does in this host: an old host returns
    [undefined]; otherwise the promise resolves once playback starts or
    rejects (autoplay blocked), leaving the element paused. *)
Inductive PlayOutcome : Type :=
| ReturnsUndefined
| Resolves
| Rejects (reason : string).

Record AppState : Type := mkApp
  { isPlaying : bool;
    audioRef : option HTMLAudioElement;
    console : list string }.

Definition setIsPlaying (v : bool) (s : AppState) : AppState :=
  mkApp v (audioRef s) (console s).

Definition console_log (msg : string) (s : AppState) : AppState :=
  mkApp (isPlaying s) (audioRef s) (console s ++ [msg]).

Definition set_audio (a : HTMLAudioElement) (s : AppState) : AppState :=
  mkApp (isPlaying s) (Some a) (console s).

Definition play (o : PlayOutcome) (a : HTMLAudioElement)
  : option (Settled unit) * HTMLAudioElement :=
  match o with
  | ReturnsUndefined => (None, mkAudio (volume a) false)
  | Resolves => (Some (Fulfilled tt), mkAudio (volume a) false)
  | Rejects e => (Some (Rejected e), a)
  end.

Definition pause (a : HTMLAudioElement) : HTMLAudioElement :=
  mkAudio (volume a) true.

(** [p.then(f)]: [f] runs on fulfilment, a rejection passes through. *)
Definition then_ {A B : Type} (p : Settled A)
    (f : A -> AppState -> Settled B * AppState) (s : AppState)
  : Settled B * AppState :=
  match p with
  | Fulfilled a => f a s
  | Rejected e => (Rejected e, s)
  end.

(** [p.catch(g)]: [g] runs on rejection, a value passes through. *)
Definition catch_ {A : Type} (p : Settled A)
    (g : string -> AppState -> Settled A * AppState) (s : AppState)
  : Settled A * AppState :=
  match p with
  | Fulfilled a => (Fulfilled a, s)
  | Rejected e => g e s
  end.

Definition autoplay_message : string :=
  "Autoplay prevented by browser, waiting for user interaction.".

(** The mount effect.  The first component is how the promise at the
    end of the chain settled ([None]: no chain was built); a [Rejected]
    there is a rejection nobody handles. *)
Definition autoplay_effect (o : PlayOutcome) (s : AppState)
  : option (Settled unit) * AppState :=
  match audioRef s with
  | None => (None, s)
  | Some a =>
      let a1 := mkAudio 0.3 (paused a) in
      let '(playPromise, a2) := play o a1 in
      let s1 := set_audio a2 s in
      match playPromise with
      | None => (None, s1)
      | Some p =>
          let '(p1, s2) :=
            then_ p (fun _ st => (Fulfilled tt, setIsPlaying true st)) s1 in
          let '(p2, s3) :=
            catch_ p1
              (fun _ st =>
                 (Fulfilled tt,
                  setIsPlaying false (console_log autoplay_message st)))
              s2 in
          (Some p2, s3)
      end
  end.

(** [toggleMusic] as one render built it: [captured] is the [isPlaying]
    that render saw. *)
Definition toggleMusic (captured : bool) (o : PlayOutcome) (s : AppState)
  : AppState :=
  match audioRef s with
  | None => s
  | Some a =>
      if captured then
        setIsPlaying false (set_audio (pause a) s)
      else
        setIsPlaying true (set_audio (snd (play o a)) s)
  end.

(** A click on the button: the handler of the latest render runs. *)
Definition click (o : PlayOutcome) (s : AppState) : AppState :=
  toggleMusic (isPlaying s) o s.

(** The state after the first render: nothing played, the [<audio>]
    element mounted with the default volume. *)
Definition mounted : AppState := mkApp false (Some (mkAudio 1 true)) [].

(** Clicks on the button, one per outcome of the [play()] it may call. *)
Fixpoint clicks (os : list PlayOutcome) (s : AppState) : AppState :=
  match os with
  | [] => s
  | o :: os' => clicks os' (click o s)
  end.

(** The button shows what the element does: [isPlaying] is true
    exactly when the mounted element is not paused. *)
Definition in_sync (s : AppState) : Prop :=
  match audioRef s with
  | Some a => isPlaying s = negb (paused a)
  | None => True
  end.

Definition rejects (o : PlayOutcome) : bool :=
  match o with
  | Rejects _ => true
  | _ => false
  end.

End App.

(* ================================================================== *)
(** * Part II: properties                                              *)
(* ================================================================== *)

(** ** The blush timer *)
Section BlushTimer.
Import THREE CalicoCat.

Lemma one_pending_mount (baseColor : Color) : one_pending (mount baseColor).
Proof. split; [apply le_n | left; reflexivity]. Qed.

Lemma one_pending_advance (t : Z) (w : World) :
  one_pending w -> one_pending (advance t w).
Proof.
  intros [Hn Hq]. unfold advance.
  destruct Hq as [Hq | (id & d & cb & Hq & Href & Hid)]; rewrite Hq; simpl.
  - split; [exact Hn | left; reflexivity].
  - destruct (d <=? t)%Z; simpl.
    + split; [exact Hn | left; reflexivity].
    + split; [exact Hn | right; exists id, d, cb; auto].
Qed.

(** The clearing step empties the queue and touches nothing else. *)
Lemma clear_pending_empties (w : World) :
  one_pending w ->
  clear_pending (blushTimeoutRef (cat w)) (timers w) =
    Host.mkTimers (Host.clock (timers w)) (Host.nextHandle (timers w)) [].
Proof.
  intros [_ Hq]. destruct (timers w) as [ck nh q] eqn:Et. simpl in *.
  destruct Hq as [Hq | (id & d & cb & Hq & Href & Hid)]; subst q.
  - destruct (blushTimeoutRef (cat w)) as [[|k]|]; reflexivity.
  - rewrite Href. destruct id as [|k]; [inversion Hid|].
    unfold clear_pending, Host.clearTimeout. simpl.
    rewrite Nat.eqb_refl. reflexivity.
Qed.

(** A click on a world with at most one pending timer leaves exactly
    the timer it has just set. *)
Lemma click_sets_single_timer (w : World) :
  one_pending w ->
  click w =
    mkWorld
      (set_blushTimeoutRef (Some (Host.nextHandle (timers w)))
         (setIsBlushing true (cat w)))
      (Host.mkTimers (Host.clock (timers w)) (S (Host.nextHandle (timers w)))
         [Host.mkTimer (Host.nextHandle (timers w))
            (Host.clock (timers w) + 2000) (Host.SetIsBlushing false)]).
Proof.
  intros H. unfold click, handleHeadClick.
  change (blushTimeoutRef (setIsBlushing true (cat w)))
    with (blushTimeoutRef (cat w)).
  rewrite (clear_pending_empties w H). reflexivity.
Qed.

Lemma one_pending_click (w : World) : one_pending w -> one_pending (click w).
Proof.
  intros H. rewrite (click_sets_single_timer w H). destruct H as [Hn _].
  split; simpl.
  - apply le_n_S, Nat.le_0_l.
  - right. eexists _, _, _. eauto.
Qed.

Lemma one_pending_clicks_at (ts : list Z) (w : World) :
  one_pending w -> one_pending (clicks_at ts w).
Proof.
  revert w. induction ts as [|t ts IH]; intros w H; simpl.
  - exact H.
  - apply IH, one_pending_click, one_pending_advance, H.
Qed.

Lemma clock_advance (t : Z) (w : World) :
  Host.clock (timers (advance t w)) = t.
Proof.
  unfold advance.
  destruct (fire_due t (Host.queue (timers w)) (cat w)). reflexivity.
Qed.

(** C1. Whatever clicks came before, after a click at time [last] the
    timer table holds exactly one timer, due at [last + 2000] ms (every
    earlier one has been cleared), and [isBlushing] read at any time [t]
    is true exactly while [t < last + 2000]: it goes back to false 2 s
    after the most recent click. *)
Theorem blush_resets_2s_after_last_click
    (baseColor : Color) (earlier : list Z) (last t : Z) :
  let w := click (advance last (clicks_at earlier (mount baseColor))) in
  (exists id,
      Host.queue (timers w) =
        [Host.mkTimer id (last + 2000) (Host.SetIsBlushing false)]) /\
  isBlushing (cat w) = true /\
  isBlushing (cat (advance t w)) = (t <? last + 2000)%Z.
Proof.
  intros w.
  assert (P : one_pending (advance last (clicks_at earlier (mount baseColor))))
    by apply one_pending_advance, one_pending_clicks_at, one_pending_mount.
  pose proof (click_sets_single_timer _ P) as Hw.
  rewrite clock_advance in Hw. fold w in Hw. rewrite Hw.
  split; [eexists; reflexivity|]. split; [reflexivity|].
  unfold advance. simpl.
  destruct (Z.leb_spec (last + 2000) t) as [Hle | Hlt]; simpl.
  - symmetry. apply Z.ltb_ge. exact Hle.
  - symmetry. apply Z.ltb_lt. exact Hlt.
Qed.

(** The scenario of the specification: clicks at 0 s and 1.5 s; the
    flag is still up at 2.0 s and at 3.499 s and down at 3.5 s. *)
Example blush_clicks_0_and_1500 (baseColor : Color) :
  let w := clicks_at [0; 1500]%Z (mount baseColor) in
  isBlushing (cat (advance 2000 w)) = true /\
  isBlushing (cat (advance 3499 w)) = true /\
  isBlushing (cat (advance 3500 w)) = false /\
  Host.queue (timers w) = [Host.mkTimer 2 3500 (Host.SetIsBlushing false)].
Proof. repeat split. Qed.

(** A single click, for comparison: down at 2.0 s. *)
Example blush_single_click (baseColor : Color) :
  let w := clicks_at [0]%Z (mount baseColor) in
  isBlushing (cat (advance 1999 w)) = true /\
  isBlushing (cat (advance 2000 w)) = false.
Proof. repeat split. Qed.

End BlushTimer.

(** ** [THREE.MathUtils.lerp] *)
Section Lerp.
Import THREE.

Lemma lerp_toward (a T alpha : R) :
  MathUtils.lerp a T alpha - T = (1 - alpha) * (a - T).
Proof. unfold MathUtils.lerp. ring. Qed.

(** With a factor in [[0, 1]] the result is a convex mix. *)
Lemma lerp_between (a T alpha : R) :
  0 <= alpha <= 1 ->
  Rmin a T <= MathUtils.lerp a T alpha <= Rmax a T.
Proof.
  intros [H0 H1]. unfold MathUtils.lerp, Rmin, Rmax.
  destruct (Rle_dec a T) as [Hle | Hgt]; split; nra.
Qed.

Lemma lerp_distance (a T alpha : R) :
  0 <= alpha <= 1 ->
  Rabs (MathUtils.lerp a T alpha - T) <= Rabs (a - T).
Proof.
  intros [H0 H1]. rewrite lerp_toward, Rabs_mult.
  rewrite (Rabs_right (1 - alpha)) by lra.
  pose proof (Rabs_pos (a - T)). nra.
Qed.

Lemma lerp_unit_interval (a T alpha : R) :
  0 <= alpha <= 1 -> 0 <= a <= 1 -> 0 <= T <= 1 ->
  0 <= MathUtils.lerp a T alpha <= 1.
Proof. intros Ha Hx HT. unfold MathUtils.lerp. split; nra. Qed.

End Lerp.

(** ** The per-frame animator of the cat *)
Section CatAnimator.
Import THREE CalicoCat.

Lemma head_frame_x (st : RootState) (h : Object3D) :
  x (rotation (head_frame st h)) =
    MathUtils.lerp (x (rotation h)) (head_target_x st) 0.1.
Proof. reflexivity. Qed.

Lemma head_frame_y (st : RootState) (h : Object3D) :
  y (rotation (head_frame st h)) =
    MathUtils.lerp (y (rotation h)) (head_target_y st) 0.1.
Proof. reflexivity. Qed.

Lemma head_frames_snoc (sts : list RootState) (st : RootState) (h : Object3D) :
  head_frames (sts ++ [st]) h = head_frame st (head_frames sts h).
Proof.
  revert h. induction sts as [|s sts IH]; intros h; simpl.
  - reflexivity.
  - apply IH.
Qed.

(** C4. A lerp with factor [alpha] in (0, 1] lands between the current
    value and the target and is no farther from the target than before;
    and when a further frame [st] pulls the head towards the same
    targets [(Tx, Ty)] as before, each of the two lerped head angles
    after it lies between its value after the earlier frames [sts] and
    its target, no farther from the target than it was. *)
Theorem head_lerp_never_overshoots
    (a T alpha Tx Ty : R) (sts : list RootState) (st : RootState)
    (h : Object3D) :
  0 < alpha <= 1 ->
  head_target_x st = Tx -> head_target_y st = Ty ->
  approaches a (MathUtils.lerp a T alpha) T /\
  approaches (x (rotation (head_frames sts h)))
             (x (rotation (head_frames (sts ++ [st]) h))) Tx /\
  approaches (y (rotation (head_frames sts h)))
             (y (rotation (head_frames (sts ++ [st]) h))) Ty.
Proof.
  intros Halpha HTx HTy.
  assert (Ha : 0 <= alpha <= 1) by lra.
  assert (H01 : 0 <= 0.1 <= 1) by lra.
  rewrite head_frames_snoc, head_frame_x, head_frame_y, HTx, HTy.
  unfold approaches.
  repeat split;
    try apply lerp_between; try apply lerp_distance; assumption.
Qed.

Lemma head_lerp_never_overshoots_witness :
  let st := mkRootState 0 0 1 in
  let h := mkObject3D origin origin ones in
  0 < 0.5 <= 1 /\
  head_target_x st = -0.3 /\ head_target_y st = 0 /\
  (approaches 0 (MathUtils.lerp 0 1 0.5) 1 /\
   approaches (x (rotation (head_frames [st] h)))
              (x (rotation (head_frames ([st] ++ [st]) h))) (-0.3) /\
   approaches (y (rotation (head_frames [st] h)))
              (y (rotation (head_frames ([st] ++ [st]) h))) 0).
Proof.
  intros st h.
  assert (Hx : head_target_x st = -0.3)
    by (unfold head_target_x, st; simpl; lra).
  assert (Hy : head_target_y st = 0)
    by (unfold head_target_y, st; simpl; rewrite Rmult_1_r, sin_0; lra).
  assert (Ha : 0 < 0.5 <= 1) by lra.
  split; [exact Ha|]. split; [exact Hx|]. split; [exact Hy|].
  exact (head_lerp_never_overshoots 0 1 0.5 (-0.3) 0 [st] st h Ha Hx Hy).
Defined.

(** The lerped angles over a whole run with a fixed target: the
    distance after more frames never exceeds the distance after fewer. *)
Lemma head_run_monotone (Tx Ty : R) (sts more : list RootState) (h : Object3D) :
  Forall (fun st => head_target_x st = Tx /\ head_target_y st = Ty) more ->
  Rabs (x (rotation (head_frames (sts ++ more) h)) - Tx)
    <= Rabs (x (rotation (head_frames sts h)) - Tx) /\
  Rabs (y (rotation (head_frames (sts ++ more) h)) - Ty)
    <= Rabs (y (rotation (head_frames sts h)) - Ty).
Proof.
  intros Hm. revert sts.
  induction Hm as [|st more [Hx Hy] _ IH]; intros sts.
  - rewrite app_nil_r. split; apply Rle_refl.
  - replace (sts ++ st :: more) with ((sts ++ [st]) ++ more)
      by (rewrite <- app_assoc; reflexivity).
    destruct (IH (sts ++ [st])) as [IHx IHy].
    assert (H01 : 0 <= 0.1 <= 1) by lra.
    split.
    + eapply Rle_trans; [exact IHx|].
      rewrite head_frames_snoc, head_frame_x, Hx.
      apply lerp_distance, H01.
    + eapply Rle_trans; [exact IHy|].
      rewrite head_frames_snoc, head_frame_y, Hy.
      apply lerp_distance, H01.
Qed.

End CatAnimator.

(** ** The blush scalar *)
Section Blush.
Import THREE CalicoCat.

(** While every frame is short enough for the lerp factor [delta * 3]
    to stay in [[0, 1]], the smoothed scalar stays in [[0, 1]]. *)
Lemma blush_run_unit_interval (fs : list (bool * R)) (cur : R) :
  Forall (fun f => 0 <= snd f <= 1 / 3) fs ->
  0 <= cur <= 1 ->
  0 <= blush_run fs cur <= 1.
Proof.
  intros Hfs. revert cur.
  induction Hfs as [|[blushing delta] fs Hd _ IH]; intros cur Hc; simpl.
  - exact Hc.
  - apply IH. unfold blush_frame. simpl in Hd.
    apply lerp_unit_interval; try lra.
    destruct blushing; simpl; lra.
Qed.

Lemma blush_run_unit_interval_example :
  0 <= blush_run [(true, 0.016); (true, 0.3); (false, 0.016)] 0 <= 1.
Proof.
  apply blush_run_unit_interval; [|lra].
  repeat constructor; simpl; lra.
Qed.

(** C2 (fails in the code). One frame of one second, which is a
    non-negative delta, taken while the cat blushes, moves
    [currentBlush] from 0 to 3: the lerp factor [delta * 3.0] is not
    clamped, so the scalar leaves [[0, 1]], and the cheek opacity
    computed from it is 2. *)
Theorem blush_leaves_unit_interval_on_long_frame
    (baseColor flushColor : Color) (st : RootState) :
  let c := setIsBlushing true (mounted baseColor) in
  let c' := useFrame baseColor flushColor st 1 c in
  currentBlush c = 0 /\
  currentBlush c' = 3 /\
  ~ (0 <= currentBlush c' <= 1) /\
  blush_run [(true, 1)] 0 = 3 /\
  option_map (fun m => opacity (material m)) (leftCheekRef c') = Some 2.
Proof.
  simpl. unfold blush_frame, MathUtils.lerp, targetBlush.
  split; [reflexivity|].
  split; [lra|].
  split; [lra|].
  split; [lra|].
  f_equal. lra.
Qed.

End Blush.

(** ** Body, right arm and cheeks under the animator *)
Section CatNodes.
Import THREE CalicoCat.

(** C8. After any frame at elapsed time [t] (so in particular for every
    [t >= 0]) a mounted body sits at [-1.8 + 0.03 * sin (2 * t)]: its
    offset from the rest height [-1.8] is [0.03 * sin (2 * t)] and lies
    within [[-0.03, 0.03]]. *)
Theorem body_bob_bounded
    (baseColor flushColor : Color) (st : RootState) (delta : R)
    (c : Cat) (bd : Object3D) :
  bodyRef c = Some bd ->
  exists bd',
    bodyRef (useFrame baseColor flushColor st delta c) = Some bd' /\
    y (position bd') - (-1.8) = 0.03 * sin (2 * elapsedTime st) /\
    -0.03 <= y (position bd') - (-1.8) <= 0.03.
Proof.
  intros Hb. exists (body_frame (elapsedTime st) bd). simpl. rewrite Hb.
  split; [reflexivity|]. simpl.
  replace (elapsedTime st * 2) with (2 * elapsedTime st) by ring.
  pose proof (SIN_bound (2 * elapsedTime st)) as [Hlo Hhi].
  split; [ring | split; lra].
Qed.

Lemma body_bob_bounded_witness :
  let st := mkRootState 0 0 0 in
  let c := mounted (mkColor 1 0 0) in
  bodyRef c = Some (group (mkVector3 0 (-1.8) 0) origin) /\
  exists bd',
    bodyRef (useFrame (mkColor 1 0 0) (mkColor 0 1 0) st 0 c) = Some bd' /\
    y (position bd') - (-1.8) = 0.03 * sin (2 * elapsedTime st) /\
    -0.03 <= y (position bd') - (-1.8) <= 0.03.
Proof.
  intros st c. split; [reflexivity|].
  apply (body_bob_bounded (mkColor 1 0 0) (mkColor 0 1 0) st 0 c
           (group (mkVector3 0 (-1.8) 0) origin)).
  reflexivity.
Defined.

Lemma useFrame_rightArm
    (baseColor flushColor : Color) (st : RootState) (delta : R) (c : Cat) :
  rightArmRef (useFrame baseColor flushColor st delta c) = rightArmRef c.
Proof. reflexivity. Qed.

(** C9 (as the code has it). No run of frames, whatever the elapsed
    times, pointer positions and deltas, changes the right arm ref: the
    arm of a mounted cat keeps position [(-0.7, 0.6, 0.3)] and rotation
    [(0, 0, -2.0)].  Besides the head, body, tail and left arm, the
    frame callback writes the two cheek meshes (scale and material),
    and nothing else: [isBlushing] and [blushTimeoutRef] are only
    read. *)
Theorem right_arm_never_written
    (baseColor flushColor : Color) (fs : list (RootState * R)) (c : Cat) :
  rightArmRef (frames baseColor flushColor fs c) = rightArmRef c /\
  rightArmRef (frames baseColor flushColor fs (mounted baseColor)) =
    Some (mkObject3D (mkVector3 (-0.7) 0.6 0.3) (mkVector3 0 0 (-2.0)) ones) /\
  isBlushing (frames baseColor flushColor fs c) = isBlushing c /\
  blushTimeoutRef (frames baseColor flushColor fs c) = blushTimeoutRef c /\
  (forall st delta,
      let blush := blush_frame (isBlushing c) delta (currentBlush c) in
      let c' := useFrame baseColor flushColor st delta c in
      leftCheekRef c' =
        option_map (cheek_frame baseColor flushColor blush) (leftCheekRef c) /\
      rightCheekRef c' =
        option_map (cheek_frame baseColor flushColor blush) (rightCheekRef c)).
Proof.
  assert (G : forall fs c,
             rightArmRef (frames baseColor flushColor fs c) = rightArmRef c /\
             isBlushing (frames baseColor flushColor fs c) = isBlushing c /\
             blushTimeoutRef (frames baseColor flushColor fs c)
               = blushTimeoutRef c).
  { clear. intros fs. induction fs as [|[st delta] fs IH]; intros c; simpl.
    - auto.
    - destruct (IH (useFrame baseColor flushColor st delta c))
        as (Ha & Hb & Ht).
      rewrite Ha, Hb, Ht. auto. }
  destruct (G fs c) as (Ha & Hb & Ht).
  destruct (G fs (mounted baseColor)) as (Hm & _ & _).
  repeat split; auto.
Qed.

(** C9 as claimed does not hold: the very first frame, even with
    [delta = 0] and the pointer at rest, rewrites the left cheek (its
    opacity drops from 0.4 to 0.2), so the head, body, tail and left
    arm are not the only nodes written. *)
Lemma cheeks_are_written_too :
  let base := mkColor 1 0.5 0.5 in
  let flush := mkColor 1 0 0.5 in
  let c := mounted base in
  let c' := useFrame base flush (mkRootState 0 0 0) 0 c in
  option_map (fun m => opacity (material m)) (leftCheekRef c) = Some 0.4 /\
  option_map (fun m => opacity (material m)) (leftCheekRef c') = Some 0.2 /\
  leftCheekRef c' <> leftCheekRef c /\
  rightCheekRef c' <> rightCheekRef c.
Proof.
  simpl. unfold blush_frame, MathUtils.lerp, targetBlush.
  split; [reflexivity|].
  split; [f_equal; lra|].
  split; intros E; injection E; intros; lra.
Qed.

End CatNodes.

(** ** Rotation of the tree *)
Section TreeRotation.
Import THREE RotatingTree.

(** The angle after a run of frames: the start angle plus 0.15 rad/s
    times the time covered; nothing else of the group changes. *)
Lemma frames_accumulate (deltas : list R) (o : Object3D) :
  frames deltas (Some o) =
    Some (with_rotation o
            (set_y (rotation o)
                   (y (rotation o) + 0.15 * elapsed deltas))).
Proof.
  revert o. induction deltas as [|d ds IH]; intros o; simpl.
  - destruct o as [p [rx ry rz] s]. unfold with_rotation, set_y. simpl.
    do 3 f_equal. ring.
  - rewrite IH. unfold with_rotation, set_y. simpl.
    do 3 f_equal. ring.
Qed.

Lemma frames_unmounted (deltas : list R) : frames deltas None = None.
Proof. induction deltas as [|d ds IH]; simpl; auto. Qed.

(** C5. Two runs of frames that cover the same total time [T], however
    each cuts it into deltas, leave the tree group in the same state,
    and its angle is [0.15 * T], hence congruent to [0.15 * T] modulo
    [2 * PI]. *)
Theorem tree_rotation_frame_rate_independent (T : R) (ds1 ds2 : list R) :
  elapsed ds1 = T -> elapsed ds2 = T ->
  frames ds1 (Some group) = frames ds2 (Some group) /\
  exists o,
    frames ds1 (Some group) = Some o /\
    y (rotation o) = 0.15 * T /\
    congruent_mod_2PI (y (rotation o)) (0.15 * T).
Proof.
  intros H1 H2. rewrite !frames_accumulate, H1, H2.
  split; [reflexivity|].
  eexists. split; [reflexivity|]. simpl.
  split; [ring|]. exists 0%Z. simpl. ring.
Qed.

Lemma tree_rotation_frame_rate_independent_witness :
  elapsed [0.5; 0.25; 0.25] = 1 /\ elapsed [0.1; 0.9] = 1 /\
  (frames [0.5; 0.25; 0.25] (Some group) = frames [0.1; 0.9] (Some group) /\
   exists o,
     frames [0.5; 0.25; 0.25] (Some group) = Some o /\
     y (rotation o) = 0.15 * 1 /\
     congruent_mod_2PI (y (rotation o)) (0.15 * 1)).
Proof.
  assert (E1 : elapsed [0.5; 0.25; 0.25] = 1) by (cbn [elapsed]; lra).
  assert (E2 : elapsed [0.1; 0.9] = 1) by (cbn [elapsed]; lra).
  split; [exact E1|]. split; [exact E2|].
  exact (tree_rotation_frame_rate_independent 1 _ _ E1 E2).
Defined.

End TreeRotation.

(** ** The clay wobble runs once *)
Section ClayWobble.
Import THREE PeelRibbon.
Variable computeVertexNormals : list Vector3 -> list Vector3.

Lemma applyClayDistortion_idempotent (mesh : option RibbonMesh) :
  applyClayDistortion computeVertexNormals
    (applyClayDistortion computeVertexNormals mesh) =
  applyClayDistortion computeVertexNormals mesh.
Proof.
  destruct mesh as [m|]; simpl; [|reflexivity].
  destruct (distorted m) eqn:E; simpl; [rewrite E|]; reflexivity.
Qed.

(** The first call does perturb an undistorted mesh. *)
Lemma applyClayDistortion_first (m : RibbonMesh) :
  distorted m = false ->
  applyClayDistortion computeVertexNormals (Some m) =
    Some (mkRibbonMesh (map wobble (positions m))
            (computeVertexNormals (map wobble (positions m))) true true).
Proof. intros E. simpl. rewrite E. reflexivity. Qed.

(** C6. Called [n >= 1] times in a row on the same mesh ref,
    [applyClayDistortion] leaves what a single call leaves: once the
    first call has set [userData.distorted], later calls return at the
    guard. *)
Theorem clay_distortion_applied_once (n : nat) (mesh : option RibbonMesh) :
  (1 <= n)%nat ->
  apply_times computeVertexNormals n mesh =
    applyClayDistortion computeVertexNormals mesh /\
  (forall m, apply_times computeVertexNormals n mesh = Some m ->
             distorted m = true).
Proof.
  intros Hn.
  assert (E : apply_times computeVertexNormals n mesh =
              applyClayDistortion computeVertexNormals mesh).
  { destruct n as [|n]; [inversion Hn|]. clear Hn. simpl.
    induction n as [|n IH]; simpl.
    - reflexivity.
    - rewrite applyClayDistortion_idempotent. exact IH. }
  split; [exact E|].
  rewrite E. destruct mesh as [m0|]; simpl; [|discriminate].
  destruct (distorted m0) eqn:D; intros m Hm; inversion Hm; subst; auto.
Qed.

End ClayWobble.

Section ClayWobbleExamples.
Import THREE PeelRibbon.

Lemma clay_distortion_applied_once_witness :
  let cvn := fun l : list Vector3 => l in
  let mesh := Some (mkRibbonMesh [origin] [origin] false false) in
  (1 <= 2)%nat /\
  (apply_times cvn 2 mesh = applyClayDistortion cvn mesh /\
   (forall m, apply_times cvn 2 mesh = Some m -> distorted m = true)).
Proof.
  intros cvn mesh.
  assert (H : (1 <= 2)%nat) by (apply le_S, le_n).
  split; [exact H|].
  exact (clay_distortion_applied_once cvn 2 mesh H).
Defined.

(** Without the guard a second pass would move the vertices again: the
    vertex at the origin goes to [z = 0.03] and then to [z = 0.06]. *)
Lemma wobble_twice_differs :
  wobble origin = mkVector3 0 0 0.03 /\
  wobble (wobble origin) = mkVector3 0 0 0.06 /\
  wobble (wobble origin) <> wobble origin.
Proof.
  assert (S0 : forall a, a = 0 -> sin a = 0)
    by (intros a Ha; rewrite Ha; apply sin_0).
  assert (C0 : forall a, a = 0 -> cos a = 1)
    by (intros a Ha; rewrite Ha; apply cos_0).
  assert (W1 : wobble origin = mkVector3 0 0 0.03).
  { unfold wobble, origin. cbn [x y z].
    rewrite (S0 (0 * 3.0)), (S0 (0 * 10 + 0 * 5)), (C0 (0 * 4.5)) by lra.
    f_equal; lra. }
  assert (W2 : wobble (wobble origin) = mkVector3 0 0 0.06).
  { rewrite W1. unfold wobble. cbn [x y z].
    rewrite (S0 (0 * 3.0)), (S0 (0 * 10 + 0 * 5)), (C0 (0 * 4.5)) by lra.
    f_equal; lra. }
  split; [exact W1|]. split; [exact W2|].
  rewrite W2, W1. intros E. injection E. lra.
Qed.

End ClayWobbleExamples.

(** ** Snow particles *)
Section SnowWraparound.
Import THREE DriftingSnow.

Variable rnd : nat -> R.
(** [Math.random()] returns a number in [[0, 1)]. *)
Hypothesis rnd_range : forall k, 0 <= rnd k < 1.

Lemma spawn_in_range (k : nat) : in_spawn_range ((rnd k - 0.5) * 15).
Proof. pose proof (rnd_range k). unfold in_spawn_range. lra. Qed.

Lemma move_recycles_or_falls (time : R) (p : Particle) (n : nat) :
  recycled_or_fallen rnd n p (fst (move time p rnd n)) /\
  (n <= snd (move time p rnd n))%nat.
Proof.
  unfold move, recycled_or_fallen.
  destruct (Rlt_dec (y (position p) - speed p) (-3)) as [Hlow | Hok];
    cbn -[Rmult Rminus Rplus].
  - split; [|lia].
    split; [reflexivity|]. right.
    split; [exact Hlow|]. split; [reflexivity|].
    split; [exists n; split; [lia | split; reflexivity]|].
    split; apply spawn_in_range.
  - split; [|lia].
    split; [reflexivity|]. left. split; [exact Hok | reflexivity].
Qed.

Lemma recycled_or_fallen_earlier (n n' : nat) (p p' : Particle) :
  (n <= n')%nat ->
  recycled_or_fallen rnd n' p p' -> recycled_or_fallen rnd n p p'.
Proof.
  intros Hn [Hs [Hfall | (Hlow & Hy & (k & Hk & Hx & Hz) & Hrx & Hrz)]];
    (split; [exact Hs|]); [left; exact Hfall | right].
  split; [exact Hlow|]. split; [exact Hy|].
  split; [exists k; split; [lia | split; assumption]|].
  split; assumption.
Qed.

Lemma forEach_recycles_or_falls (time : R) (ps : list Particle) :
  forall (i : nat) (buf : list Instance) (n : nat),
    Forall2 (recycled_or_fallen rnd n) ps
            (fst (fst (forEach time i ps buf rnd n))).
Proof.
  induction ps as [|p ps IH]; intros i buf n.
  - constructor.
  - cbn [forEach]. unfold bind at 1.
    pose proof (move_recycles_or_falls time p n) as [Hp Hn].
    destruct (move time p rnd n) as [p' n'] eqn:Em.
    unfold bind at 1.
    specialize (IH (S i) (setMatrixAt i (instance_of time p') buf) n').
    destruct (forEach time (S i) ps
                (setMatrixAt i (instance_of time p') buf) rnd n')
      as [rest n''] eqn:Er.
    cbn in *. constructor; [exact Hp|].
    eapply Forall2_impl; [|exact IH].
    intros a a'. apply recycled_or_fallen_earlier, Hn.
Qed.

(** C3 (as the code has it). In a frame with the instanced mesh
    mounted, every particle keeps its speed, and its height afterwards
    is its previous height minus its speed, unless that is below [-3]:
    then the height is [10] and both horizontal coordinates are fresh
    draws [(Math.random() - 0.5) * 15], each in [[-7.5, 7.5)]. *)
Theorem snow_wraparound
    (time : R) (s : Snow) (m : InstancedMesh) (n : nat) :
  mesh s = Some m ->
  Forall2 (recycled_or_fallen rnd n)
          (particles s) (particles (fst (useFrame time s rnd n))).
Proof.
  intros Hm. unfold useFrame. rewrite Hm. unfold bind.
  pose proof (forEach_recycles_or_falls time (particles s) 0
                (instanceMatrix m) n) as H.
  destruct (forEach time 0 (particles s) (instanceMatrix m) rnd n)
    as [out n'].
  exact H.
Qed.

(** With no mesh mounted the callback returns at once: no particle
    moves and no random number is drawn. *)
Lemma useFrame_unmounted (time : R) (s : Snow) (n : nat) :
  mesh s = None -> useFrame time s rnd n = (s, n).
Proof. intros Hm. unfold useFrame. rewrite Hm. reflexivity. Qed.

End SnowWraparound.

Section SnowExamples.
Import THREE DriftingSnow.

Lemma snow_wraparound_witness :
  let rnd := fun _ : nat => 0.5 in
  let m := mkInstancedMesh [] false in
  let s := mkSnow (Some m) [mkParticle (mkVector3 1 (-3) 2) 0.01 0 0.2] in
  (forall k, 0 <= rnd k < 1) /\
  mesh s = Some m /\
  Forall2 (recycled_or_fallen rnd 0)
          (particles s) (particles (fst (useFrame 0 s rnd 0%nat))).
Proof.
  intros rnd m s.
  assert (Hr : forall k, 0 <= rnd k < 1) by (intros k; unfold rnd; lra).
  split; [exact Hr|]. split; [reflexivity|].
  exact (snow_wraparound rnd Hr 0 s m 0%nat eq_refl).
Defined.

(** C3 as claimed does not hold at the lower edge of the range: for a
    particle at height [-3] falling by [0.01], when [Math.random()]
    answers 0 the recycled particle lands at [x = -7.5] (and
    [z = -7.5]), which is not strictly inside [(-7.5, 7.5)]. *)
Lemma snow_respawn_reaches_lower_edge :
  let rnd := fun _ : nat => 0 in
  let flake := mkParticle (mkVector3 1 (-3) 2) 0.01 0 0.2 in
  let p' := fst (move 0 flake rnd 0%nat) in
  (forall k, 0 <= rnd k < 1) /\
  y (position flake) - speed flake < -3 /\
  y (position p') = 10 /\
  x (position p') = -7.5 /\
  z (position p') = -7.5 /\
  ~ (-7.5 < x (position p') < 7.5) /\
  ~ (-7.5 < z (position p') < 7.5).
Proof.
  intros rnd flake p'.
  assert (Hlow : y (position flake) - speed flake < -3)
    by (unfold flake; cbn [position speed y]; lra).
  assert (E : p' = mkParticle (mkVector3 ((0 - 0.5) * 15) 10 ((0 - 0.5) * 15))
                     0.01 0 0.2).
  { unfold p', move.
    destruct (Rlt_dec (y (position flake) - speed flake) (-3)) as [_ | Hn];
      [reflexivity | contradiction]. }
  split; [intros k; unfold rnd; lra|].
  split; [exact Hlow|].
  rewrite E. cbn [position x y z].
  repeat split; try lra.
Qed.

End SnowExamples.

(** ** Background music *)
Section Music.
Import App.

(** Whatever [play()] does, the chain built by the mount effect never
    ends rejected. *)
Lemma autoplay_never_rejected (o : PlayOutcome) (s : AppState) (e : string) :
  fst (autoplay_effect o s) <> Some (Rejected e).
Proof.
  unfold autoplay_effect.
  destruct (audioRef s) as [a|]; [|discriminate].
  destruct o; simpl; discriminate.
Qed.

(** C7. With the audio element mounted: if the promise of [play()]
    rejects, the [catch] handler runs, [isPlaying] ends false, the
    element stays as paused as it was, one line is logged and the
    chain ends fulfilled (nothing propagates); if it resolves,
    [isPlaying] ends true and the chain ends fulfilled as well. *)
Theorem autoplay_rejection_is_silent
    (s : AppState) (a : HTMLAudioElement) (e : string) :
  audioRef s = Some a ->
  (let '(p, s') := autoplay_effect (Rejects e) s in
   p = Some (Fulfilled tt) /\
   isPlaying s' = false /\
   audioRef s' = Some (mkAudio 0.3 (paused a)) /\
   console s' = console s ++ [autoplay_message]) /\
  (let '(p, s') := autoplay_effect Resolves s in
   p = Some (Fulfilled tt) /\
   isPlaying s' = true /\
   audioRef s' = Some (mkAudio 0.3 false) /\
   console s' = console s).
Proof.
  intros Ha. unfold autoplay_effect. rewrite Ha. simpl.
  repeat split.
Qed.

Lemma autoplay_rejection_is_silent_witness :
  audioRef mounted = Some (mkAudio 1 true) /\
  ((let '(p, s') := autoplay_effect (Rejects "NotAllowedError") mounted in
    p = Some (Fulfilled tt) /\
    isPlaying s' = false /\
    audioRef s' = Some (mkAudio 0.3 true) /\
    console s' = console mounted ++ [autoplay_message]) /\
   (let '(p, s') := autoplay_effect Resolves mounted in
    p = Some (Fulfilled tt) /\
    isPlaying s' = true /\
    audioRef s' = Some (mkAudio 0.3 false) /\
    console s' = console mounted)).
Proof.
  split; [reflexivity|].
  exact (autoplay_rejection_is_silent mounted (mkAudio 1 true)
           "NotAllowedError" eq_refl).
Defined.

(** Without the audio element the handler does nothing. *)
Lemma toggleMusic_unmounted (captured : bool) (o : PlayOutcome) (s : AppState) :
  audioRef s = None -> toggleMusic captured o s = s.
Proof. intros H. unfold toggleMusic. rewrite H. reflexivity. Qed.

(** C10. With the audio element mounted, a click flips [isPlaying],
    pausing the element when it was playing and calling [play()] when
    it was not; and a second click gives [isPlaying] its first value
    back. *)
Theorem toggleMusic_involution
    (s : AppState) (a : HTMLAudioElement) (o1 o2 : PlayOutcome) :
  audioRef s = Some a ->
  isPlaying (click o1 s) = negb (isPlaying s) /\
  audioRef (click o1 s) =
    Some (if isPlaying s then pause a else snd (play o1 a)) /\
  isPlaying (click o2 (click o1 s)) = isPlaying s.
Proof.
  intros Ha. unfold click, toggleMusic. rewrite Ha.
  destruct (isPlaying s); simpl; repeat split.
Qed.

Lemma toggleMusic_involution_witness :
  audioRef mounted = Some (mkAudio 1 true) /\
  (isPlaying (click Resolves mounted) = negb (isPlaying mounted) /\
   audioRef (click Resolves mounted) =
     Some (if isPlaying mounted then pause (mkAudio 1 true)
           else snd (play Resolves (mkAudio 1 true))) /\
   isPlaying (click Resolves (click Resolves mounted)) = isPlaying mounted).
Proof.
  split; [reflexivity|].
  exact (toggleMusic_involution mounted (mkAudio 1 true) Resolves Resolves
           eq_refl).
Defined.

(** The handler of one render reads the [isPlaying] of that render:
    run twice without a render in between, it sets the same value
    twice.  A click always runs the handler of the latest render. *)
Lemma toggleMusic_same_closure_twice (s : AppState) (o1 o2 : PlayOutcome) :
  isPlaying
    (toggleMusic (isPlaying s) o2 (toggleMusic (isPlaying s) o1 s))
  = isPlaying (toggleMusic (isPlaying s) o1 s).
Proof.
  unfold toggleMusic.
  destruct (audioRef s) as [a|] eqn:Ha; [|rewrite Ha; reflexivity].
  destruct (isPlaying s); reflexivity.
Qed.

End Music.

(* ================================================================== *)
(** * Part III: further properties of the scene                        *)
(* ================================================================== *)

(** ** The spine of the ribbon *)
Section RibbonSpine.
Import THREE PeelRibbon.

Lemma spine_point_radius2 (steps i : nat) :
  radius2 (spine_point steps i) =
    (0.5 + INR i / INR steps * 2.2) * (0.5 + INR i / INR steps * 2.2).
Proof.
  unfold radius2, spine_point. cbn [x z].
  set (a := INR i / INR steps * PI * 2 * loops).
  set (r := 0.5 + INR i / INR steps * 2.2).
  pose proof (sin2_cos2 a) as H. unfold Rsqr in H.
  replace (cos a * r * (cos a * r) + sin a * r * (sin a * r))
    with ((sin a * sin a + cos a * cos a) * (r * r)) by ring.
  rewrite H. ring.
Qed.

Lemma spine_fraction (steps i : nat) :
  (0 < steps)%nat -> (i <= steps)%nat -> 0 <= INR i / INR steps <= 1.
Proof.
  intros Hs Hi.
  assert (Hp : 0 < INR steps) by (apply lt_0_INR; exact Hs).
  assert (H0 : 0 <= INR i) by apply pos_INR.
  assert (H1 : INR i <= INR steps) by (apply le_INR; exact Hi).
  split.
  - apply Rmult_le_pos; [exact H0 | left; apply Rinv_0_lt_compat; exact Hp].
  - apply (Rmult_le_reg_r (INR steps)); [exact Hp|].
    unfold Rdiv. rewrite Rmult_assoc, Rinv_l by lra. lra.
Qed.

Lemma spine_fraction_lt (steps i j : nat) :
  (0 < steps)%nat -> (i < j)%nat -> INR i / INR steps < INR j / INR steps.
Proof.
  intros Hs Hij.
  assert (Hp : 0 < INR steps) by (apply lt_0_INR; exact Hs).
  unfold Rdiv. apply Rmult_lt_compat_r.
  - apply Rinv_0_lt_compat; exact Hp.
  - apply lt_INR; exact Hij.
Qed.

(** The spine has [steps + 1] control points, starts on the [x] axis at
    radius 0.5 and height 3.5, and after three and a half turns ends
    opposite, at [(-2.7, -1, 0)]. *)
Theorem spine_endpoints (steps : nat) :
  (0 < steps)%nat ->
  List.length (spine_points steps) = S steps /\
  nth 0 (spine_points steps) origin = mkVector3 0.5 3.5 0 /\
  nth steps (spine_points steps) origin = mkVector3 (-2.7) (-1) 0.
Proof.
  intros Hs.
  assert (Hp : 0 < INR steps) by (apply lt_0_INR; exact Hs).
  unfold spine_points.
  split; [rewrite length_map, length_seq; reflexivity|].
  split.
  - cbn [seq map nth]. unfold spine_point, loops, startY, endY.
    change (INR 0) with 0.
    replace (0 / INR steps) with 0 by (unfold Rdiv; ring).
    replace (0 * PI * 2 * 3.5) with 0 by ring.
    rewrite cos_0, sin_0. f_equal; lra.
  - rewrite (nth_indep _ origin (spine_point steps 0))
      by (rewrite length_map, length_seq; apply Nat.lt_succ_diag_r).
    rewrite map_nth, seq_nth by apply Nat.lt_succ_diag_r.
    cbn [Nat.add]. unfold spine_point, loops, startY, endY.
    replace (INR steps / INR steps) with 1 by (field; lra).
    replace (1 * PI * 2 * 3.5) with (PI + 2 * INR 3 * PI) by (simpl; lra).
    rewrite cos_period, sin_period, cos_PI, sin_PI. f_equal; lra.
Qed.

Lemma spine_endpoints_witness :
  (0 < 60)%nat /\
  (List.length (spine_points 60) = 61%nat /\
   nth 0 (spine_points 60) origin = mkVector3 0.5 3.5 0 /\
   nth 60 (spine_points 60) origin = mkVector3 (-2.7) (-1) 0).
Proof.
  assert (H : (0 < 60)%nat) by apply Nat.lt_0_succ.
  split; [exact H|]. exact (spine_endpoints 60 H).
Defined.

(** Every control point lies between the cylinders of radius 0.5 and
    2.7 and between the heights -1 and 3.5; along the spine the height
    falls linearly, strictly, and the distance from the axis grows
    strictly: the ribbon spirals outward on its way down. *)
Theorem spine_spirals_outward_and_down (steps i j : nat) :
  (0 < steps)%nat -> (i < j)%nat -> (j <= steps)%nat ->
  let p := spine_point steps i in
  let q := spine_point steps j in
  y p = 3.5 - 4.5 * (INR i / INR steps) /\
  -1 <= y q /\ y q < y p /\ y p <= 3.5 /\
  0.5 * 0.5 <= radius2 p /\ radius2 p < radius2 q /\
  radius2 q <= 2.7 * 2.7.
Proof.
  intros Hs Hij Hj p q.
  assert (Hi : (i <= steps)%nat) by lia.
  pose proof (spine_fraction steps i Hs Hi) as [Hi0 Hi1].
  pose proof (spine_fraction steps j Hs Hj) as [Hj0 Hj1].
  pose proof (spine_fraction_lt steps i j Hs Hij) as Hlt.
  unfold p, q. rewrite !spine_point_radius2.
  unfold spine_point, startY, endY. cbn [y].
  set (a := INR i / INR steps) in *. set (c := INR j / INR steps) in *.
  repeat split; nra.
Qed.

Lemma spine_spirals_outward_and_down_witness :
  (0 < 60)%nat /\ (10 < 20)%nat /\ (20 <= 60)%nat /\
  (let p := spine_point 60 10 in
   let q := spine_point 60 20 in
   y p = 3.5 - 4.5 * (INR 10 / INR 60) /\
   -1 <= y q /\ y q < y p /\ y p <= 3.5 /\
   0.5 * 0.5 <= radius2 p /\ radius2 p < radius2 q /\
   radius2 q <= 2.7 * 2.7).
Proof.
  assert (H1 : (0 < 60)%nat) by lia.
  assert (H2 : (10 < 20)%nat) by lia.
  assert (H3 : (20 <= 60)%nat) by lia.
  split; [exact H1|]. split; [exact H2|]. split; [exact H3|].
  exact (spine_spirals_outward_and_down 60 10 20 H1 H2 H3).
Defined.

(** The wobble moves a vertex by at most 0.03 along [x] and [z] and by
    at most 0.01 along [y]. *)
Lemma wobble_small (v : Vector3) :
  Rabs (x (wobble v) - x v) <= 0.03 /\
  Rabs (y (wobble v) - y v) <= 0.01 /\
  Rabs (z (wobble v) - z v) <= 0.03.
Proof.
  unfold wobble. cbn [x y z].
  pose proof (SIN_bound (y v * 3.0)).
  pose proof (COS_bound (y v * 4.5)).
  pose proof (SIN_bound (y v * 10 + x v * 5)).
  repeat split; apply Rabs_le; lra.
Qed.

(** A call of [applyClayDistortion] on a mounted mesh keeps the number
    of vertices and moves none of them by more than 0.03 along [x] and
    [z] and 0.01 along [y], whether or not the mesh was distorted
    before. *)
Theorem clay_distortion_is_small
    (computeVertexNormals : list Vector3 -> list Vector3) (m : RibbonMesh) :
  exists m',
    applyClayDistortion computeVertexNormals (Some m) = Some m' /\
    List.length (positions m') = List.length (positions m) /\
    Forall2 (fun v v' =>
               Rabs (x v' - x v) <= 0.03 /\
               Rabs (y v' - y v) <= 0.01 /\
               Rabs (z v' - z v) <= 0.03)
            (positions m) (positions m').
Proof.
  cbn [applyClayDistortion]. destruct (distorted m).
  - exists m. split; [reflexivity|]. split; [reflexivity|].
    induction (positions m) as [|v l IH]; constructor; [|exact IH].
    replace (x v - x v) with 0 by ring.
    replace (y v - y v) with 0 by ring.
    replace (z v - z v) with 0 by ring.
    rewrite Rabs_R0. repeat split; lra.
  - eexists. split; [reflexivity|]. cbn [positions].
    split; [apply length_map|].
    induction (positions m) as [|v l IH]; constructor; [|exact IH].
    apply wobble_small.
Qed.

End RibbonSpine.

(** ** Decorations along the ribbon *)
Section Decorations.
Import THREE RibbonDecoration.

Lemma flat_length (p : Vector3) :
  RibbonDecoration.length (mkVector3 (x p) 0 (z p)) = horizontal_radius p.
Proof.
  unfold RibbonDecoration.length, horizontal_radius. cbn [x y z].
  f_equal. ring.
Qed.

Lemma horizontal_radius_pos (p : Vector3) :
  x p <> 0 \/ z p <> 0 -> 0 < horizontal_radius p.
Proof.
  intros H. unfold horizontal_radius. apply sqrt_lt_R0.
  destruct H as [H | H]; nra.
Qed.

(** A decoration hung from a point off the vertical axis sits at the
    same height, in the same horizontal direction, exactly 0.22 farther
    from the axis; and the memoised [offsetDir] is left scaled to
    length 0.22 by the in-place [multiplyScalar]. *)
Theorem decoration_pushed_outward (point : Vector3) :
  x point <> 0 \/ z point <> 0 ->
  y (pos point) = y point /\
  horizontal_radius (pos point) = horizontal_radius point + 0.22 /\
  (exists k, 1 < k /\ x (pos point) = k * x point
                   /\ z (pos point) = k * z point) /\
  RibbonDecoration.length (snd (place point)) = 0.22.
Proof.
  intros Hoff.
  pose proof (horizontal_radius_pos point Hoff) as HL.
  set (L := horizontal_radius point) in *.
  assert (HLL : L * L = x point * x point + z point * z point).
  { unfold L, horizontal_radius. apply sqrt_sqrt. nra. }
  assert (Hx : x (pos point) = (1 + 0.22 / L) * x point).
  { unfold pos, place, offsetDir, normalize, divideScalar, multiplyScalar,
      add. rewrite flat_length. fold L.
    destruct (Req_dec_T L 0) as [E | _]; [lra|]. cbn [fst x]. field. lra. }
  assert (Hz : z (pos point) = (1 + 0.22 / L) * z point).
  { unfold pos, place, offsetDir, normalize, divideScalar, multiplyScalar,
      add. rewrite flat_length. fold L.
    destruct (Req_dec_T L 0) as [E | _]; [lra|]. cbn [fst z]. field. lra. }
  assert (Hk : 0 < 0.22 / L).
  { apply Rmult_lt_0_compat; [lra | apply Rinv_0_lt_compat; exact HL]. }
  split.
  { unfold pos, place, offsetDir, normalize, divideScalar, multiplyScalar,
      add. cbn [fst x y z]. ring. }
  split.
  { unfold horizontal_radius at 1. rewrite Hx, Hz.
    replace ((1 + 0.22 / L) * x point * ((1 + 0.22 / L) * x point) +
             (1 + 0.22 / L) * z point * ((1 + 0.22 / L) * z point))
      with ((L + 0.22) * (L + 0.22)).
    - apply sqrt_square. lra.
    - transitivity ((1 + 0.22 / L) * (1 + 0.22 / L) * (L * L));
        [field; lra | rewrite HLL; ring]. }
  split.
  { exists (1 + 0.22 / L). split; [lra|]. split; assumption. }
  unfold place, offsetDir, normalize, divideScalar, multiplyScalar.
  rewrite flat_length. fold L.
  destruct (Req_dec_T L 0) as [E | _]; [lra|].
  unfold RibbonDecoration.length. cbn [snd x y z].
  replace (x point * (1 / L) * 0.22 * (x point * (1 / L) * 0.22) +
           0 * (1 / L) * 0.22 * (0 * (1 / L) * 0.22) +
           z point * (1 / L) * 0.22 * (z point * (1 / L) * 0.22))
    with (0.22 * 0.22).
  - apply sqrt_square. lra.
  - transitivity (0.22 * 0.22 * ((x point * x point + z point * z point)
                                 / (L * L)));
      [rewrite <- HLL; field; lra | field; lra].
Qed.

Lemma decoration_pushed_outward_witness :
  let point := mkVector3 3 1 4 in
  (x point <> 0 \/ z point <> 0) /\
  (y (pos point) = y point /\
   horizontal_radius (pos point) = horizontal_radius point + 0.22 /\
   (exists k, 1 < k /\ x (pos point) = k * x point
                    /\ z (pos point) = k * z point) /\
   RibbonDecoration.length (snd (place point)) = 0.22).
Proof.
  intros point.
  assert (H : x point <> 0 \/ z point <> 0) by (left; cbn [point x]; lra).
  split; [exact H|]. exact (decoration_pushed_outward point H).
Defined.

(** A point on the vertical axis has no outward direction: [normalize]
    divides the zero vector by 1, and the decoration stays on the
    point. *)
Theorem decoration_on_axis_stays (point : Vector3) :
  x point = 0 -> z point = 0 ->
  pos point = point /\ snd (place point) = origin.
Proof.
  intros Hx Hz. destruct point as [px py pz]. cbn [x z] in Hx, Hz. subst.
  unfold pos, place, offsetDir, normalize, divideScalar, multiplyScalar, add.
  assert (E : RibbonDecoration.length (mkVector3 0 0 0) = 0).
  { unfold RibbonDecoration.length. cbn [x y z].
    replace (0 * 0 + 0 * 0 + 0 * 0) with 0 by ring. apply sqrt_0. }
  cbn [x y z]. rewrite E.
  destruct (Req_dec_T 0 0) as [_ | N]; [|contradiction].
  cbn [fst snd x y z]. unfold origin. split; f_equal; lra.
Qed.

Lemma decoration_on_axis_stays_witness :
  let point := mkVector3 0 2 0 in
  x point = 0 /\ z point = 0 /\
  (pos point = point /\ snd (place point) = origin).
Proof.
  intros point. split; [reflexivity|]. split; [reflexivity|].
  exact (decoration_on_axis_stays point eq_refl eq_refl).
Defined.

Lemma decoration_frames_snoc (phase t : R) (ts : list R) (ref : option Object3D) :
  frames phase (ts ++ [t]) ref = useFrame phase t (frames phase ts ref).
Proof.
  revert ref. induction ts as [|u ts IH]; intros ref; simpl.
  - reflexivity.
  - apply IH.
Qed.

Lemma decoration_frames_shape (phase : R) (ts : list R) (g : Object3D) :
  exists g',
    frames phase ts (Some g) = Some g' /\
    position g' = position g /\ scale g' = scale g /\
    y (rotation g') = y (rotation g).
Proof.
  revert g. induction ts as [|t ts IH]; intros g.
  - exists g. repeat split.
  - cbn [frames useFrame].
    destruct (IH (with_rotation g
                    (mkVector3 (sin (t * 2.5 + phase) * 0.15) (y (rotation g))
                               (cos (t * 2.0 + phase) * 0.1))))
      as (g' & E & Hp & Hs & Hy).
    exists g'. split; [exact E|]. repeat split; assumption.
Qed.

(** The swing of a decoration has no memory: after any run of frames
    its group is the mounted group with [rotation.x] and [rotation.z]
    set from the time of the last frame alone, within 0.15 rad and
    0.1 rad; position, scale and [rotation.y] are never written. *)
Theorem decoration_swing_is_memoryless
    (phase t : R) (ts : list R) (g : Object3D) :
  let swingX := sin (t * 2.5 + phase) * 0.15 in
  let swingZ := cos (t * 2.0 + phase) * 0.1 in
  frames phase (ts ++ [t]) (Some g) =
    Some (mkObject3D (position g)
                     (mkVector3 swingX (y (rotation g)) swingZ) (scale g)) /\
  -0.15 <= swingX <= 0.15 /\ -0.1 <= swingZ <= 0.1.
Proof.
  intros swingX swingZ. rewrite decoration_frames_snoc.
  destruct (decoration_frames_shape phase ts g) as (g' & E & Hp & Hs & Hy).
  rewrite E. cbn [useFrame]. unfold with_rotation. rewrite Hp, Hs, Hy.
  split; [reflexivity|].
  pose proof (SIN_bound (t * 2.5 + phase)).
  pose proof (COS_bound (t * 2.0 + phase)).
  unfold swingX, swingZ. split; lra.
Qed.

End Decorations.

(** ** More on the cat's animator *)
Section CatPose.
Import THREE CalicoCat.

Lemma frames_snoc (baseColor flushColor : Color)
    (fs : list (RootState * R)) (f : RootState * R) (c : Cat) :
  frames baseColor flushColor (fs ++ [f]) c =
    useFrame baseColor flushColor (fst f) (snd f)
      (frames baseColor flushColor fs c).
Proof.
  revert c. induction fs as [|[st d] fs IH]; intros c; simpl.
  - destruct f. reflexivity.
  - apply IH.
Qed.

Lemma option_map_proj {A B C : Type} (g : A -> B) (k : B -> C)
    (r r' : option A) :
  option_map g r' = option_map g r ->
  option_map (fun a => k (g a)) r' = option_map (fun a => k (g a)) r.
Proof.
  destruct r, r'; cbn [option_map]; intros E; try discriminate;
    [injection E as ->|]; reflexivity.
Qed.

(** What a run of frames leaves alone in each node. *)
Lemma frames_layout (baseColor flushColor : Color)
    (fs : list (RootState * R)) (c : Cat) :
  let c' := frames baseColor flushColor fs c in
  (option_map position (headRef c') = option_map position (headRef c) /\
   option_map scale (headRef c') = option_map scale (headRef c)) /\
  (option_map (fun o => (x (position o), z (position o), scale o,
                         x (rotation o), y (rotation o))) (bodyRef c') =
   option_map (fun o => (x (position o), z (position o), scale o,
                         x (rotation o), y (rotation o))) (bodyRef c)) /\
  (option_map (fun o => (position o, scale o, z (rotation o))) (tailRef c') =
   option_map (fun o => (position o, scale o, z (rotation o))) (tailRef c)) /\
  (option_map (fun o => (position o, scale o, x (rotation o), y (rotation o)))
     (leftArmRef c') =
   option_map (fun o => (position o, scale o, x (rotation o), y (rotation o)))
     (leftArmRef c)) /\
  (option_map (fun m => (position (object m), rotation (object m)))
     (leftCheekRef c') =
   option_map (fun m => (position (object m), rotation (object m)))
     (leftCheekRef c)) /\
  (option_map (fun m => (position (object m), rotation (object m)))
     (rightCheekRef c') =
   option_map (fun m => (position (object m), rotation (object m)))
     (rightCheekRef c)).
Proof.
  revert c. induction fs as [|[st d] fs IH]; intros c.
  - cbn [frames]. repeat split.
  - cbn [frames].
    destruct (IH (useFrame baseColor flushColor st d c))
      as ((H1 & H2) & H3 & H4 & H5 & H6 & H7).
    cbv zeta. rewrite H1, H2, H3, H4, H5, H6, H7.
    cbn [useFrame headRef bodyRef tailRef leftArmRef leftCheekRef
           rightCheekRef].
    destruct (headRef c), (bodyRef c), (tailRef c), (leftArmRef c),
      (leftCheekRef c), (rightCheekRef c); repeat split.
Qed.

(** The animator only ever turns the head, the tail and the left arm:
    over any run of frames their position and scale stay as mounted;
    the body moves along [y] only; and the cheeks keep their place on
    the face. *)
Theorem animator_never_moves_limbs
    (baseColor flushColor : Color) (fs : list (RootState * R)) (c : Cat) :
  let c' := frames baseColor flushColor fs c in
  option_map position (headRef c') = option_map position (headRef c) /\
  option_map position (tailRef c') = option_map position (tailRef c) /\
  option_map position (leftArmRef c') = option_map position (leftArmRef c) /\
  option_map scale (headRef c') = option_map scale (headRef c) /\
  option_map scale (bodyRef c') = option_map scale (bodyRef c) /\
  option_map scale (tailRef c') = option_map scale (tailRef c) /\
  option_map scale (leftArmRef c') = option_map scale (leftArmRef c) /\
  option_map (fun o => (x (position o), z (position o))) (bodyRef c') =
    option_map (fun o => (x (position o), z (position o))) (bodyRef c) /\
  option_map (fun m => position (object m)) (leftCheekRef c') =
    option_map (fun m => position (object m)) (leftCheekRef c) /\
  option_map (fun m => position (object m)) (rightCheekRef c') =
    option_map (fun m => position (object m)) (rightCheekRef c).
Proof.
  intros c'.
  destruct (frames_layout baseColor flushColor fs c)
    as ((H1 & H2) & H3 & H4 & H5 & H6 & H7).
  fold c' in H1, H2, H3, H4, H5, H6, H7.
  split; [exact H1|].
  split; [exact (option_map_proj _ (fun u => fst (fst u)) _ _ H4)|].
  split; [exact (option_map_proj _ (fun u => fst (fst (fst u))) _ _ H5)|].
  split; [exact H2|].
  split; [exact (option_map_proj _ (fun u => snd (fst (fst u))) _ _ H3)|].
  split; [exact (option_map_proj _ (fun u => snd (fst u)) _ _ H4)|].
  split; [exact (option_map_proj _ (fun u => snd (fst (fst u))) _ _ H5)|].
  split; [exact (option_map_proj _
                   (fun u => (fst (fst (fst (fst u))), snd (fst (fst (fst u)))))
                   _ _ H3)|].
  split; [exact (option_map_proj _ fst _ _ H6)|].
  exact (option_map_proj _ fst _ _ H7).
Qed.

(** Body, tail and left arm have no memory: after any run of frames
    on a freshly mounted cat they are the mounted groups with the
    animated coordinates set from the elapsed time [t] of the last frame
    alone, whatever the earlier frames, pointer positions and deltas
    were; and each animated coordinate stays within its amplitude of its
    rest value. *)
Theorem cat_pose_follows_clock
    (baseColor flushColor : Color) (fs : list (RootState * R))
    (st : RootState) (delta : R) :
  let t := elapsedTime st in
  let c' := frames baseColor flushColor (fs ++ [(st, delta)])
              (mounted baseColor) in
  bodyRef c' =
    Some (mkObject3D (mkVector3 0 (-1.8 + sin (t * 2) * 0.03) 0)
                     (mkVector3 0 0 (sin (t * 1.5) * 0.04)) ones) /\
  tailRef c' =
    Some (mkObject3D (mkVector3 0 0.3 (-0.6))
                     (mkVector3 (-0.5 + sin (t * 5) * 0.05)
                                (sin (t * 3) * 0.3) 0) ones) /\
  leftArmRef c' =
    Some (mkObject3D (mkVector3 0.6 0.8 0)
                     (mkVector3 0 0 (2.5 + sin (t * 2.5) * 0.15)) ones) /\
  option_map (fun o => z (rotation o)) (headRef c') =
    Some (sin (t * 2) * 0.05) /\
  (-1.83 <= -1.8 + sin (t * 2) * 0.03 <= -1.77 /\
   -0.04 <= sin (t * 1.5) * 0.04 <= 0.04 /\
   -0.55 <= -0.5 + sin (t * 5) * 0.05 <= -0.45 /\
   -0.3 <= sin (t * 3) * 0.3 <= 0.3 /\
   2.35 <= 2.5 + sin (t * 2.5) * 0.15 <= 2.65 /\
   -0.05 <= sin (t * 2) * 0.05 <= 0.05).
Proof.
  intros t c'. unfold c'. rewrite frames_snoc. cbn [fst snd].
  destruct (frames_layout baseColor flushColor fs (mounted baseColor))
    as ((H1 & _) & H3 & H4 & H5 & _ & _).
  set (c1 := frames baseColor flushColor fs (mounted baseColor)) in *.
  cbn [mounted headRef bodyRef tailRef leftArmRef option_map group
         position rotation scale x y z] in H1, H3, H4, H5.
  cbn [useFrame headRef bodyRef tailRef leftArmRef]. fold t.
  destruct (headRef c1) as [[hp [hx hy hz] hs]|]; [|discriminate].
  destruct (bodyRef c1) as [[[bx by_ bz] [brx bry brz] bs]|]; [|discriminate].
  destruct (tailRef c1) as [[tp [tx ty tz] ts]|]; [|discriminate].
  destruct (leftArmRef c1) as [[lp [lx ly lz] ls]|]; [|discriminate].
  cbn [option_map position rotation scale x y z] in H3, H4, H5.
  injection H3 as -> -> -> -> ->.
  injection H4 as -> -> ->.
  injection H5 as -> -> -> ->.
  split; [reflexivity|]. split; [reflexivity|]. split; [reflexivity|].
  split; [reflexivity|].
  pose proof (SIN_bound (t * 2)). pose proof (SIN_bound (t * 1.5)).
  pose proof (SIN_bound (t * 5)). pose proof (SIN_bound (t * 3)).
  pose proof (SIN_bound (t * 2.5)).
  repeat split; lra.
Qed.

(** While the pointer stays in the normalised square [[-1, 1]^2], a head
    that starts within 0.3 rad of pitch and 0.7 rad of yaw stays within
    them through any run of frames. *)
Theorem head_stays_within_reach (sts : list RootState) (h : Object3D) :
  Forall (fun st => -1 <= pointer_x st <= 1 /\ -1 <= pointer_y st <= 1) sts ->
  -0.3 <= x (rotation h) <= 0.3 ->
  -0.7 <= y (rotation h) <= 0.7 ->
  -0.3 <= x (rotation (head_frames sts h)) <= 0.3 /\
  -0.7 <= y (rotation (head_frames sts h)) <= 0.7.
Proof.
  intros Hp. revert h.
  induction Hp as [|st sts [Hpx Hpy] _ IH]; intros h Hx Hy.
  - cbn [head_frames]. split; assumption.
  - cbn [head_frames]. apply IH.
    + rewrite head_frame_x. unfold MathUtils.lerp, head_target_x. lra.
    + rewrite head_frame_y. unfold MathUtils.lerp, head_target_y.
      pose proof (SIN_bound (elapsedTime st * 1)). lra.
Qed.

Lemma head_stays_within_reach_witness :
  let sts := [mkRootState 0 1 (-1); mkRootState 1 0 0.5] in
  let h := mkObject3D origin origin ones in
  Forall (fun st => -1 <= pointer_x st <= 1 /\ -1 <= pointer_y st <= 1) sts /\
  -0.3 <= x (rotation h) <= 0.3 /\
  -0.7 <= y (rotation h) <= 0.7 /\
  (-0.3 <= x (rotation (head_frames sts h)) <= 0.3 /\
   -0.7 <= y (rotation (head_frames sts h)) <= 0.7).
Proof.
  intros sts h.
  assert (Hp : Forall (fun st => -1 <= pointer_x st <= 1 /\
                                 -1 <= pointer_y st <= 1) sts).
  { unfold sts. repeat constructor; cbn [pointer_x pointer_y]; lra. }
  assert (Hx : -0.3 <= x (rotation h) <= 0.3)
    by (unfold h, origin; cbn [rotation x]; lra).
  assert (Hy : -0.7 <= y (rotation h) <= 0.7)
    by (unfold h, origin; cbn [rotation y]; lra).
  split; [exact Hp|]. split; [exact Hx|]. split; [exact Hy|].
  exact (head_stays_within_reach sts h Hp Hx Hy).
Defined.

(** With the pointer held at height [py], the pitch of the head closes
    in on its target [-(py * 0.3)] geometrically: each frame leaves nine
    tenths of the remaining distance, whatever the frame rate. *)
Theorem head_pitch_geometric (py : R) (sts : list RootState) (h : Object3D) :
  Forall (fun st => pointer_y st = py) sts ->
  x (rotation (head_frames sts h)) - - (py * 0.3) =
    0.9 ^ List.length sts * (x (rotation h) - - (py * 0.3)).
Proof.
  intros Hp. revert h.
  induction Hp as [|st sts Hst _ IH]; intros h.
  - cbn [head_frames List.length pow]. ring.
  - cbn [head_frames List.length pow]. rewrite IH, head_frame_x.
    unfold MathUtils.lerp, head_target_x. rewrite Hst.
    generalize (0.9 ^ List.length sts). intros q. lra.
Qed.

Lemma head_pitch_geometric_witness :
  let sts := [mkRootState 0 0 1; mkRootState 1 0.5 1] in
  let h := mkObject3D origin origin ones in
  Forall (fun st => pointer_y st = 1) sts /\
  x (rotation (head_frames sts h)) - - (1 * 0.3) =
    0.9 ^ List.length sts * (x (rotation h) - - (1 * 0.3)).
Proof.
  intros sts h.
  assert (Hp : Forall (fun st => pointer_y st = 1) sts)
    by (unfold sts; repeat constructor).
  split; [exact Hp|]. exact (head_pitch_geometric 1 sts h Hp).
Defined.

End CatPose.

(** ** More on the blush *)
Section BlushSmoothing.
Import THREE CalicoCat.

Lemma blush_run_steady (blushing : bool) (delta cur : R) (n : nat) :
  blush_run (repeat (blushing, delta) n) cur - targetBlush blushing =
    (1 - delta * 3.0) ^ n * (cur - targetBlush blushing).
Proof.
  revert cur. induction n as [|n IH]; intros cur.
  - cbn [repeat blush_run pow]. ring.
  - cbn [repeat blush_run pow]. rewrite IH.
    unfold blush_frame, MathUtils.lerp.
    generalize ((1 - delta * 3.0) ^ n). intros q. ring.
Qed.

(** At a steady frame time [delta], with [isBlushing] unchanged, the
    distance of the blush scalar to its target is multiplied by
    [1 - 3 * delta] at every frame: after [n] frames the scalar is
    [target + (1 - 3 * delta) ^ n * (start - target)].  The rate of
    approach therefore depends on the frame rate. *)
Theorem blush_closed_form (blushing : bool) (delta cur : R) (n : nat) :
  blush_run (repeat (blushing, delta) n) cur =
    targetBlush blushing +
    (1 - delta * 3.0) ^ n * (cur - targetBlush blushing).
Proof.
  pose proof (blush_run_steady blushing delta cur n) as H.
  generalize dependent ((1 - delta * 3.0) ^ n). intros q H. lra.
Qed.

Lemma pow_095_90 : 0.95 ^ 90 <= 0.01.
Proof. lra. Qed.

(** At any steady frame time between 1/60 s and 1/3 s, ninety frames
    after [isBlushing] last changed the blush scalar has covered at
    least 99% of the way to its target (1 after a click, 0 after the
    timer fired). *)
Theorem blush_settles_in_90_frames (blushing : bool) (delta cur : R) :
  1 / 60 <= delta <= 1 / 3 ->
  Rabs (blush_run (repeat (blushing, delta) 90) cur - targetBlush blushing)
    <= 0.01 * Rabs (cur - targetBlush blushing).
Proof.
  intros Hd. rewrite blush_run_steady, Rabs_mult.
  assert (Hq : 0 <= 1 - delta * 3.0 <= 0.95) by lra.
  pose proof (pow_incr _ _ 90 Hq) as Hle.
  pose proof (pow_le _ 90 (proj1 Hq)) as H0.
  pose proof (Rle_trans _ _ _ Hle pow_095_90) as H95.
  clear Hle Hq Hd.
  generalize dependent ((1 - delta * 3.0) ^ 90). intros q H0 H95.
  rewrite (Rabs_right q) by (apply Rle_ge; exact H0).
  apply Rmult_le_compat_r; [apply Rabs_pos | exact H95].
Qed.

Lemma blush_settles_in_90_frames_witness :
  1 / 60 <= 1 / 60 <= 1 / 3 /\
  Rabs (blush_run (repeat (true, 1 / 60) 90) 0 - targetBlush true)
    <= 0.01 * Rabs (0 - targetBlush true).
Proof.
  assert (H : 1 / 60 <= 1 / 60 <= 1 / 3) by lra.
  split; [exact H|]. exact (blush_settles_in_90_frames true (1 / 60) 0 H).
Defined.

(** A frame of at most a third of a second keeps the documented
    ranges: from a blush scalar in [[0, 1]] it leaves the scalar in
    [[0, 1]], and every mounted cheek with a uniform scale between 1.0
    and 1.2, an opacity between 0.2 and 0.8 and the colour blended at
    the scalar; so both cheeks always look the same. *)
Theorem cheeks_within_documented_range
    (baseColor flushColor : Color) (st : RootState) (delta : R) (c : Cat) :
  0 <= delta <= 1 / 3 ->
  0 <= currentBlush c <= 1 ->
  let c' := useFrame baseColor flushColor st delta c in
  0 <= currentBlush c' <= 1 /\
  forall m,
    leftCheekRef c' = Some m \/ rightCheekRef c' = Some m ->
    scale (object m) = setScalar (1.0 + currentBlush c' * 0.2) /\
    1.0 <= 1.0 + currentBlush c' * 0.2 <= 1.2 /\
    0.2 <= opacity (material m) <= 0.8 /\
    material m =
      mkMaterial (Color_lerp baseColor flushColor (currentBlush c'))
                 (0.2 + currentBlush c' * 0.6).
Proof.
  intros Hd Hb c'.
  assert (Hb' : 0 <= currentBlush c' <= 1).
  { unfold c'. cbn [useFrame currentBlush]. unfold blush_frame.
    apply lerp_unit_interval; try lra.
    destruct (isBlushing c); cbn [targetBlush]; lra. }
  split; [exact Hb'|].
  intros m Hm.
  assert (E : m = mkMesh (with_scale (object m)
                            (setScalar (1.0 + currentBlush c' * 0.2)))
                         (mkMaterial
                            (Color_lerp baseColor flushColor (currentBlush c'))
                            (0.2 + currentBlush c' * 0.6))).
  { unfold c' in *. cbn [useFrame leftCheekRef rightCheekRef currentBlush] in *.
    destruct Hm as [Hm | Hm].
    - destruct (leftCheekRef c) as [l|]; [|discriminate].
      injection Hm as <-. reflexivity.
    - destruct (rightCheekRef c) as [l|]; [|discriminate].
      injection Hm as <-. reflexivity. }
  rewrite E. cbn [object material scale opacity with_scale].
  repeat split; lra.
Qed.

Lemma cheeks_within_documented_range_witness :
  let base := mkColor 1 0.5 0.5 in
  let flush := mkColor 1 0 0.5 in
  let c := setIsBlushing true (mounted base) in
  let c' := useFrame base flush (mkRootState 0 0 0) 0.25 c in
  0 <= 0.25 <= 1 / 3 /\
  0 <= currentBlush c <= 1 /\
  (0 <= currentBlush c' <= 1 /\
   forall m,
     leftCheekRef c' = Some m \/ rightCheekRef c' = Some m ->
     scale (object m) = setScalar (1.0 + currentBlush c' * 0.2) /\
     1.0 <= 1.0 + currentBlush c' * 0.2 <= 1.2 /\
     0.2 <= opacity (material m) <= 0.8 /\
     material m =
       mkMaterial (Color_lerp base flush (currentBlush c'))
                  (0.2 + currentBlush c' * 0.6)).
Proof.
  intros base flush c c'.
  assert (Hd : 0 <= 0.25 <= 1 / 3) by lra.
  assert (Hb : 0 <= currentBlush c <= 1)
    by (unfold c; cbn [setIsBlushing mounted currentBlush]; lra).
  split; [exact Hd|]. split; [exact Hb|].
  exact (cheeks_within_documented_range base flush (mkRootState 0 0 0) 0.25 c
           Hd Hb).
Defined.

(** The groups are constructed in the pose the animator gives them at
    [t = 0] with the pointer centred: a frame there leaves all five
    groups and the blush scalar of a freshly mounted cat as they are,
    whatever its delta.  The cheeks are not: their constructed opacity
    0.4 is replaced by 0.2. *)
Theorem first_frame_keeps_rest_pose
    (baseColor flushColor : Color) (delta : R) :
  let c := mounted baseColor in
  let c' := useFrame baseColor flushColor (mkRootState 0 0 0) delta c in
  headRef c' = headRef c /\ bodyRef c' = bodyRef c /\
  tailRef c' = tailRef c /\ leftArmRef c' = leftArmRef c /\
  rightArmRef c' = rightArmRef c /\ currentBlush c' = currentBlush c /\
  option_map (fun m => opacity (material m)) (leftCheekRef c') = Some 0.2 /\
  option_map (fun m => opacity (material m)) (rightCheekRef c') = Some 0.2.
Proof.
  assert (S0 : forall a, a = 0 -> sin a = 0)
    by (intros a Ha; rewrite Ha; apply sin_0).
  cbv zeta.
  cbn [mounted useFrame headRef bodyRef tailRef leftArmRef rightArmRef
         leftCheekRef rightCheekRef currentBlush isBlushing option_map
         elapsedTime cheek group head_frame body_frame tail_frame
         leftArm_frame cheek_frame pointer_x pointer_y with_rotation
         with_position with_scale set_y set_z position rotation scale
         x y z origin material opacity object].
  unfold blush_frame, MathUtils.lerp, targetBlush, origin, head_frame,
    body_frame, tail_frame, leftArm_frame, group, with_rotation,
    with_position, set_y, set_z.
  cbn [x y z position rotation scale elapsedTime pointer_x pointer_y].
  unfold MathUtils.lerp.
  rewrite (S0 (0 * 1)), (S0 (0 * 2)), (S0 (0 * 1.5)), (S0 (0 * 5)),
    (S0 (0 * 3)), (S0 (0 * 2.5)) by lra.
  assert (V : forall a1 a2 a3 c1 c2 c3,
             a1 = c1 -> a2 = c2 -> a3 = c3 ->
             mkVector3 a1 a2 a3 = mkVector3 c1 c2 c3)
    by (intros; subst; reflexivity).
  repeat split;
    first [ reflexivity
          | lra
          | f_equal; lra
          | do 2 f_equal; apply V; lra ].
Qed.

End BlushSmoothing.

(** ** Clicks, timers and the scene *)
Section ClicksAndTimers.
Import THREE CalicoCat.

Lemma flag_matches_timer_step (i : Input) (w : World) :
  one_pending w -> flag_matches_timer w ->
  one_pending (run [i] w) /\ flag_matches_timer (run [i] w).
Proof.
  intros Hp Hf. destruct i as [|t]; cbn [run].
  - split; [apply one_pending_click; exact Hp|].
    rewrite (click_sets_single_timer w Hp). right. cbn.
    split; [reflexivity|]. eexists _, _. split; reflexivity.
  - split; [apply one_pending_advance; exact Hp|].
    unfold advance.
    destruct Hf as [[Hb Hq] | (Hb & id & d & Hq & Href)]; rewrite Hq.
    + cbn. left. split; [exact Hb | reflexivity].
    + cbn [fire_due Host.deadline Host.callback run_callback].
      destruct (d <=? t)%Z.
      * cbn. left. split; reflexivity.
      * cbn. right. split; [exact Hb|]. exists id, d. split; [reflexivity|].
        exact Href.
Qed.

Lemma run_app (ins ins' : list Input) (w : World) :
  run (ins ++ ins') w = run ins' (run ins w).
Proof.
  revert w. induction ins as [|[|t] ins IH]; intros w; cbn [run app];
    [reflexivity | apply IH | apply IH].
Qed.

(** Whatever clicks and clock advances a mounted cat has seen, it is
    blushing exactly when one timer is pending, the one
    [blushTimeoutRef] names, set to take the flag down; when it is not
    blushing, nothing is pending.  So the flag can never stay up
    without a timer that will reset it. *)
Theorem blush_flag_always_has_its_timer
    (baseColor : Color) (ins : list Input) :
  let w := run ins (mount baseColor) in
  (isBlushing (cat w) = false /\ Host.queue (timers w) = []) \/
  (isBlushing (cat w) = true /\
   exists id d,
     Host.queue (timers w) = [Host.mkTimer id d (Host.SetIsBlushing false)] /\
     blushTimeoutRef (cat w) = Some id).
Proof.
  assert (G : forall ins w,
             one_pending w -> flag_matches_timer w ->
             flag_matches_timer (run ins w)).
  { clear. intros ins. induction ins as [|i ins IH]; intros w Hp Hf.
    - exact Hf.
    - destruct (flag_matches_timer_step i w Hp Hf) as [Hp' Hf'].
      change (i :: ins) with ([i] ++ ins). rewrite run_app.
      apply IH; assumption. }
  apply G.
  - apply one_pending_mount.
  - left. split; reflexivity.
Qed.

Lemma fire_due_keeps_nodes (t : Z) (q : list Host.Timer) (c : Cat) :
  let c' := snd (fire_due t q c) in
  (headRef c', bodyRef c', tailRef c', leftArmRef c', rightArmRef c',
   leftCheekRef c', rightCheekRef c', currentBlush c') =
  (headRef c, bodyRef c, tailRef c, leftArmRef c, rightArmRef c,
   leftCheekRef c, rightCheekRef c, currentBlush c).
Proof.
  revert c. induction q as [|u q IH]; intros c; cbn [fire_due].
  - reflexivity.
  - destruct (Host.deadline u <=? t)%Z; [|reflexivity].
    cbv zeta in IH. rewrite IH. destruct (Host.callback u). reflexivity.
Qed.

(** Clicks and timers never touch the scene: over any sequence of
    clicks and clock advances the seven node refs and the smoothed
    blush scalar are what they were.  Only the frame callback writes
    them. *)
Theorem inputs_never_touch_scene (ins : list Input) (w : World) :
  let c := cat w in
  let c' := cat (run ins w) in
  headRef c' = headRef c /\ bodyRef c' = bodyRef c /\
  tailRef c' = tailRef c /\ leftArmRef c' = leftArmRef c /\
  rightArmRef c' = rightArmRef c /\ leftCheekRef c' = leftCheekRef c /\
  rightCheekRef c' = rightCheekRef c /\ currentBlush c' = currentBlush c.
Proof.
  assert (G : forall ins w,
             let c := cat w in
             let c' := cat (run ins w) in
             (headRef c', bodyRef c', tailRef c', leftArmRef c',
              rightArmRef c', leftCheekRef c', rightCheekRef c',
              currentBlush c') =
             (headRef c, bodyRef c, tailRef c, leftArmRef c, rightArmRef c,
              leftCheekRef c, rightCheekRef c, currentBlush c)).
  { clear. intros ins. induction ins as [|[|t] ins IH]; intros w; cbv zeta.
    - reflexivity.
    - cbn [run]. cbv zeta in IH. rewrite IH.
      unfold click, handleHeadClick.
      destruct (Host.setTimeout _ _ _). reflexivity.
    - cbn [run]. cbv zeta in IH. rewrite IH.
      pose proof (fire_due_keeps_nodes t (Host.queue (timers w)) (cat w)) as F.
      unfold advance. destruct (fire_due t (Host.queue (timers w)) (cat w)).
      exact F. }
  intros c c'. pose proof (G ins w) as E. cbv zeta in E. fold c c' in E.
  injection E as -> -> -> -> -> -> -> ->. repeat split.
Qed.

End ClicksAndTimers.

(** ** More on the snow *)
Section SnowLife.
Import THREE DriftingSnow.

Variable rnd : nat -> R.
(** [Math.random()] returns a number in [[0, 1)]. *)
Hypothesis rnd_range : forall k, 0 <= rnd k < 1.

Lemma spawn_particle_spec (n : nat) :
  let p := fst (spawn_particle rnd n) in
  snd (spawn_particle rnd n) = (n + 6)%nat /\
  in_flight p /\ 2 <= y (position p) /\
  in_spawn_range (x (position p)) /\ in_spawn_range (z (position p)).
Proof.
  cbn -[Rmult Rminus Rplus INR PI].
  pose proof (rnd_range n). pose proof (rnd_range (S n)).
  pose proof (rnd_range (S (S n))). pose proof (rnd_range (S (S (S n)))).
  pose proof (rnd_range (S (S (S (S n))))).
  pose proof (rnd_range (S (S (S (S (S n)))))).
  pose proof PI_RGT_0.
  unfold in_flight, in_spawn_range. cbn [position speed driftOffset scale x y z].
  split; [lia|]. repeat split; try lra; try nra.
Qed.

(** Mounting [count] flakes draws exactly [6 * count] random numbers and
    yields [count] particles, each created at a height in [[2, 14)],
    with both horizontal coordinates in [[-7.5, 7.5)], a fall speed in
    [[0.01, 0.05)], a drift phase in [[0, 2 * PI)] and a size in
    [[0.2, 0.6)]. *)
Theorem spawn_in_ranges (count n : nat) :
  let ps := fst (spawn count rnd n) in
  snd (spawn count rnd n) = (n + 6 * count)%nat /\
  List.length ps = count /\
  Forall (fun p => in_flight p /\ 2 <= y (position p) /\
                   in_spawn_range (x (position p)) /\
                   in_spawn_range (z (position p))) ps.
Proof.
  revert n. induction count as [|count IH]; intros n; cbv zeta.
  - cbn. split; [lia|]. split; [reflexivity | constructor].
  - destruct (spawn_particle_spec n) as (Hn & Hp).
    destruct (spawn_particle rnd n) as [p n1] eqn:Ep. cbn [fst snd] in Hn, Hp.
    destruct (IH n1) as (Hn2 & Hlen & Hall).
    destruct (spawn count rnd n1) as [ps n2] eqn:Es. cbn [fst snd] in *.
    assert (E : spawn (S count) rnd n = (p :: ps, n2)).
    { cbn [spawn]. unfold bind at 1. rewrite Ep. unfold bind at 1.
      rewrite Es. reflexivity. }
    rewrite E. cbn [fst snd List.length].
    split; [lia|]. split; [f_equal; exact Hlen|].
    constructor; assumption.
Qed.

Lemma move_keeps_in_flight (time : R) (p : Particle) (n : nat) :
  in_flight p -> in_flight (fst (move time p rnd n)).
Proof.
  intros (Hy & Hs & Hd & Hc). unfold move, in_flight.
  destruct (Rlt_dec (y (position p) - speed p) (-3)) as [Hlow | Hok];
    cbn -[Rmult Rminus Rplus PI]; repeat split; lra.
Qed.

Lemma move_keeps_identity (time : R) (p : Particle) (n : nat) :
  let p' := fst (move time p rnd n) in
  speed p' = speed p /\ driftOffset p' = driftOffset p /\ scale p' = scale p.
Proof.
  unfold move.
  destruct (Rlt_dec (y (position p) - speed p) (-3));
    cbn -[Rmult Rminus Rplus]; repeat split.
Qed.

Lemma forEach_keeps (time : R) (ps : list Particle) :
  forall (i : nat) (buf : list Instance) (n : nat),
    Forall2 (fun p p' =>
               (in_flight p -> in_flight p') /\
               speed p' = speed p /\ driftOffset p' = driftOffset p /\
               scale p' = scale p)
            ps (fst (fst (forEach time i ps buf rnd n))).
Proof.
  induction ps as [|p ps IH]; intros i buf n.
  - constructor.
  - cbn [forEach]. unfold bind at 1.
    pose proof (move_keeps_in_flight time p n) as Hf.
    pose proof (move_keeps_identity time p n) as Hi.
    destruct (move time p rnd n) as [p' n']. cbn [fst] in Hf, Hi.
    unfold bind at 1.
    specialize (IH (S i) (setMatrixAt i (instance_of time p') buf) n').
    destruct (forEach time (S i) ps
                (setMatrixAt i (instance_of time p') buf) rnd n')
      as [rest n''].
    cbn in *. constructor; [split; assumption | exact IH].
Qed.

Lemma useFrame_keeps (time : R) (s : Snow) (n : nat) :
  Forall2 (fun p p' =>
             (in_flight p -> in_flight p') /\
             speed p' = speed p /\ driftOffset p' = driftOffset p /\
             scale p' = scale p)
          (particles s) (particles (fst (useFrame time s rnd n))).
Proof.
  unfold useFrame. destruct (mesh s) as [m|].
  - unfold bind.
    pose proof (forEach_keeps time (particles s) 0 (instanceMatrix m) n) as H.
    destruct (forEach time 0 (particles s) (instanceMatrix m) rnd n)
      as [out n'].
    exact H.
  - cbn. induction (particles s); constructor; auto.
Qed.

Lemma kept_pointwise (l l' : list Particle) :
  Forall2 (fun p p' =>
             (in_flight p -> in_flight p') /\
             speed p' = speed p /\ driftOffset p' = driftOffset p /\
             scale p' = scale p) l l' ->
  List.length l' = List.length l /\
  map speed l' = map speed l /\
  map driftOffset l' = map driftOffset l /\
  map scale l' = map scale l /\
  (Forall in_flight l -> Forall in_flight l').
Proof.
  intros H. induction H as [|p p' l l' (Hp & Hps & Hpd & Hpc) _ IHl].
  - repeat split. auto.
  - destruct IHl as (K1 & K2 & K3 & K4 & K5). cbn [List.length map].
    rewrite K1, K2, K3, K4, Hps, Hpd, Hpc. repeat split.
    intros F. inversion F; subst. constructor; auto.
Qed.

(** Over any run of frames, mounted or not, the flakes stay the same
    flakes: their number, and each one's fall speed, drift phase and
    size never change; and a flake that was between the floor [-3] and
    the ceiling [14] with a speed in [[0.01, 0.05)] is still so. *)
Theorem snow_keeps_its_flakes (times : list R) (s : Snow) (n : nat) :
  Forall in_flight (particles s) ->
  let s' := fst (frames times s rnd n) in
  List.length (particles s') = List.length (particles s) /\
  map speed (particles s') = map speed (particles s) /\
  map driftOffset (particles s') = map driftOffset (particles s) /\
  map scale (particles s') = map scale (particles s) /\
  Forall in_flight (particles s').
Proof.
  intros Hin.
  enough (G : let s' := fst (frames times s rnd n) in
              List.length (particles s') = List.length (particles s) /\
              map speed (particles s') = map speed (particles s) /\
              map driftOffset (particles s') = map driftOffset (particles s) /\
              map scale (particles s') = map scale (particles s) /\
              (Forall in_flight (particles s) ->
               Forall in_flight (particles s'))).
  { cbv zeta in *. destruct G as (G1 & G2 & G3 & G4 & G5).
    repeat split; auto. }
  clear Hin.
  revert s n. induction times as [|t ts IH]; intros s n.
  - cbn. repeat split. auto.
  - cbn [frames]. unfold bind.
    pose proof (useFrame_keeps t s n) as H.
    destruct (useFrame t s rnd n) as [s1 n1]. cbn [fst] in H.
    destruct (IH s1 n1) as (Hl & Hs & Hd & Hc & Hf).
    cbv zeta. rewrite Hl, Hs, Hd, Hc. clear IH Hl Hs Hd Hc.
    pose proof (kept_pointwise _ _ H) as K.
    destruct K as (K1 & K2 & K3 & K4 & K5).
    repeat split; auto.
Qed.

End SnowLife.

Section SnowRecycling.
Import THREE DriftingSnow.

Variable rnd : nat -> R.

Lemma move_cursor (time : R) (p : Particle) (n : nat) :
  (y (position p) - speed p < -3 /\ snd (move time p rnd n) = S (S n)) \/
  (~ y (position p) - speed p < -3 /\ snd (move time p rnd n) = n /\
   y (position (fst (move time p rnd n))) = y (position p) - speed p /\
   speed (fst (move time p rnd n)) = speed p).
Proof.
  unfold move.
  destruct (Rlt_dec (y (position p) - speed p) (-3)) as [Hlow | Hok];
    cbn -[Rmult Rminus Rplus]; [left | right]; repeat split; assumption.
Qed.

Lemma fall_cursor_grows (times : list R) (p : Particle) (n : nat) :
  (n <= snd (fall times p rnd n))%nat.
Proof.
  revert p n. induction times as [|t ts IH]; intros p n; cbn [fall].
  - cbn. lia.
  - unfold bind.
    pose proof (move_cursor t p n) as H.
    destruct (move t p rnd n) as [p' n']. cbn [fst snd] in H.
    specialize (IH p' n'). destruct H as [[_ ->] | (_ & -> & _)]; lia.
Qed.

(** No flake falls forever: a flake at or above the floor whose height
    minus [k] times its speed is below [-3] is recycled (it draws
    random numbers) within its next [k] frames. *)
Theorem flake_recycled_within (times : list R) (p : Particle) (n : nat) :
  -3 <= y (position p) ->
  y (position p) - INR (List.length times) * speed p < -3 ->
  (n < snd (fall times p rnd n))%nat.
Proof.
  revert p n. induction times as [|t ts IH]; intros p n Hy Hk.
  - cbn [List.length INR] in Hk. lra.
  - cbn [fall]. unfold bind.
    pose proof (move_cursor t p n) as H.
    pose proof (fall_cursor_grows ts (fst (move t p rnd n))
                  (snd (move t p rnd n))) as G.
    destruct (move t p rnd n) as [p' n'] eqn:E. cbn [fst snd] in H, G.
    destruct H as [[_ ->] | (Hok & -> & Hy' & Hs')]; [lia|].
    apply IH.
    + rewrite Hy'. lra.
    + rewrite Hy', Hs'.
      change (List.length (t :: ts)) with (S (List.length ts)) in Hk.
      rewrite S_INR in Hk. lra.
Qed.

(** Every falling flake has such a [k]: with a positive speed, some
    number of frames takes it below the floor. *)
Lemma flake_has_a_last_frame (p : Particle) :
  0 < speed p ->
  exists k : nat, y (position p) - INR k * speed p < -3.
Proof.
  intros Hs.
  destruct (INR_archimed (speed p) (y (position p) + 3) Hs) as [k Hk].
  exists k. lra.
Qed.

(** Between two recyclings a flake drifts sideways by at most 0.02 per
    frame on each axis and draws no random number. *)
Theorem flake_drift_is_small (time : R) (p : Particle) (n : nat) :
  ~ y (position p) - speed p < -3 ->
  let p' := fst (move time p rnd n) in
  snd (move time p rnd n) = n /\
  Rabs (x (position p') - x (position p)) <= 0.02 /\
  Rabs (z (position p') - z (position p)) <= 0.02.
Proof.
  intros Hok. unfold move.
  destruct (Rlt_dec (y (position p) - speed p) (-3)) as [Hlow | _];
    [contradiction|].
  cbn -[Rmult Rminus Rplus].
  pose proof (SIN_bound (time * 0.5 + driftOffset p)).
  pose proof (COS_bound (time * 0.3 + driftOffset p)).
  split; [reflexivity|]. split; apply Rabs_le; lra.
Qed.

Lemma setMatrixAt_middle (pre : list Instance) (a m : Instance)
    (post : list Instance) :
  setMatrixAt (List.length pre) m (pre ++ a :: post) = pre ++ m :: post.
Proof.
  induction pre as [|b pre IH]; cbn [List.length app setMatrixAt].
  - reflexivity.
  - rewrite IH. reflexivity.
Qed.

Lemma forEach_fills_buffer (time : R) (ps : list Particle) :
  forall (pre mid : list Instance) (n : nat),
    List.length mid = List.length ps ->
    snd (fst (forEach time (List.length pre) ps (pre ++ mid) rnd n)) =
      pre ++ map (instance_of time)
                 (fst (fst (forEach time (List.length pre) ps (pre ++ mid)
                              rnd n))).
Proof.
  induction ps as [|p ps IH]; intros pre mid n Hlen.
  - destruct mid; [|discriminate]. cbn. reflexivity.
  - destruct mid as [|a mid]; [discriminate|].
    cbn [forEach]. unfold bind at 1 3.
    destruct (move time p rnd n) as [p' n'].
    rewrite setMatrixAt_middle.
    specialize (IH (pre ++ [instance_of time p']) mid n').
    rewrite length_app in IH. cbn [List.length] in IH.
    rewrite Nat.add_1_r, <- app_assoc in IH. cbn [app] in IH.
    unfold bind at 1 2.
    destruct (forEach time (S (List.length pre)) ps
                (pre ++ instance_of time p' :: mid) rnd n') as [[ps' buf'] n''].
    cbn [fst snd ret map] in *.
    rewrite IH by (injection Hlen as ->; reflexivity).
    rewrite <- app_assoc. reflexivity.
Qed.

(** After a frame on a mounted mesh with one instance slot per flake,
    the instance buffer is exactly the flakes' new transforms: slot [i]
    holds flake [i]'s position after the frame, its uniform scale and
    the rotation of the frame's time; and the buffer is flagged for
    upload. *)
Theorem snow_buffer_mirrors_flakes
    (time : R) (s : Snow) (m : InstancedMesh) (n : nat) :
  mesh s = Some m ->
  List.length (instanceMatrix m) = List.length (particles s) ->
  let s' := fst (useFrame time s rnd n) in
  mesh s' =
    Some (mkInstancedMesh (map (instance_of time) (particles s')) true).
Proof.
  intros Hm Hlen. unfold useFrame. rewrite Hm. unfold bind.
  pose proof (forEach_fills_buffer time (particles s) [] (instanceMatrix m) n
                Hlen) as H.
  cbn [List.length app] in H.
  destruct (forEach time 0 (particles s) (instanceMatrix m) rnd n)
    as [[ps' buf'] n'].
  cbn [fst snd ret mesh particles] in *. rewrite H. reflexivity.
Qed.

End SnowRecycling.

Section SnowRecyclingExamples.
Import THREE DriftingSnow.

Lemma spawn_in_ranges_witness :
  let rnd := fun _ : nat => 0.5 in
  (forall k, 0 <= rnd k < 1) /\
  (let ps := fst (spawn 2 rnd 0%nat) in
   snd (spawn 2 rnd 0%nat) = (0 + 6 * 2)%nat /\
   List.length ps = 2%nat /\
   Forall (fun p => in_flight p /\ 2 <= y (position p) /\
                    in_spawn_range (x (position p)) /\
                    in_spawn_range (z (position p))) ps).
Proof.
  intros rnd.
  assert (Hr : forall k, 0 <= rnd k < 1) by (intros k; unfold rnd; lra).
  split; [exact Hr|]. exact (spawn_in_ranges rnd Hr 2 0%nat).
Defined.

Lemma snow_keeps_its_flakes_witness :
  let rnd := fun _ : nat => 0.5 in
  let s := mkSnow (Some (mkInstancedMesh [] false))
                  [mkParticle (mkVector3 0 5 0) 0.01 0 0.2] in
  Forall in_flight (particles s) /\
  (let s' := fst (frames [0; 0.016] s rnd 0%nat) in
   List.length (particles s') = List.length (particles s) /\
   map speed (particles s') = map speed (particles s) /\
   map driftOffset (particles s') = map driftOffset (particles s) /\
   map scale (particles s') = map scale (particles s) /\
   Forall in_flight (particles s')).
Proof.
  intros rnd s.
  assert (H : Forall in_flight (particles s)).
  { pose proof PI_RGT_0. repeat constructor;
      cbn [position speed driftOffset scale y]; lra. }
  split; [exact H|]. exact (snow_keeps_its_flakes rnd [0; 0.016] s 0%nat H).
Defined.

Lemma flake_recycled_within_witness :
  let p := mkParticle (mkVector3 0 (-2.98) 0) 0.01 0 0.2 in
  let times := [0; 0.016; 0.032] in
  let rnd0 := fun _ : nat => 0.5 in
  -3 <= y (position p) /\
  y (position p) - INR (List.length times) * speed p < -3 /\
  (0 < snd (fall times p rnd0 0%nat))%nat.
Proof.
  intros p times rnd0.
  assert (Hy : -3 <= y (position p)) by (cbn [p position y]; lra).
  assert (Hk : y (position p) - INR (List.length times) * speed p < -3)
    by (cbn [p times position y speed List.length INR]; lra).
  split; [exact Hy|]. split; [exact Hk|].
  exact (flake_recycled_within rnd0 times p 0%nat Hy Hk).
Defined.

Lemma flake_drift_is_small_witness :
  let p := mkParticle (mkVector3 0 5 0) 0.01 0 0.2 in
  let rnd0 := fun _ : nat => 0.5 in
  ~ y (position p) - speed p < -3 /\
  (let p' := fst (move 1 p rnd0 0%nat) in
   snd (move 1 p rnd0 0%nat) = 0%nat /\
   Rabs (x (position p') - x (position p)) <= 0.02 /\
   Rabs (z (position p') - z (position p)) <= 0.02).
Proof.
  intros p rnd0.
  assert (H : ~ y (position p) - speed p < -3)
    by (cbn [p position y speed]; lra).
  split; [exact H|]. exact (flake_drift_is_small rnd0 1 p 0%nat H).
Defined.

Lemma snow_buffer_mirrors_flakes_witness :
  let rnd := fun _ : nat => 0.5 in
  let p := mkParticle (mkVector3 0 5 0) 0.01 0 0.2 in
  let m := mkInstancedMesh [instance_of 0 p] false in
  let s := mkSnow (Some m) [p] in
  mesh s = Some m /\
  List.length (instanceMatrix m) = List.length (particles s) /\
  (let s' := fst (useFrame 1 s rnd 0%nat) in
   mesh s' =
     Some (mkInstancedMesh (map (instance_of 1) (particles s')) true)).
Proof.
  intros rnd p m s. split; [reflexivity|]. split; [reflexivity|].
  exact (snow_buffer_mirrors_flakes rnd 1 s m 0%nat eq_refl eq_refl).
Defined.

End SnowRecyclingExamples.

(** ** More on the music *)
Section MusicState.
Import App.

Lemma click_keeps_sync (o : PlayOutcome) (s : AppState) :
  rejects o = false -> in_sync (click o s).
Proof.
  intros Ho. unfold in_sync, click, toggleMusic.
  destruct (audioRef s) as [a|] eqn:Ha.
  - destruct (isPlaying s); cbn.
    + reflexivity.
    + destruct o; [reflexivity | reflexivity | discriminate].
  - rewrite Ha. exact I.
Qed.

Lemma clicks_keep_sync (os : list PlayOutcome) (s : AppState) :
  Forall (fun o => rejects o = false) os ->
  in_sync s -> in_sync (clicks os s).
Proof.
  intros Hos. revert s.
  induction Hos as [|o os Ho _ IH]; intros s Hs; cbn [clicks].
  - exact Hs.
  - apply IH, click_keeps_sync, Ho.
Qed.

(** The button tells the truth as long as [play()] keeps its promise:
    starting with the element paused, after the mount effect (on a host
    whose [play()] returns a promise) and any number of clicks none of
    whose [play()] is rejected, [isPlaying] is true exactly when the
    element is not paused. *)
Theorem music_button_in_sync
    (o0 : PlayOutcome) (os : list PlayOutcome) (s : AppState)
    (a : HTMLAudioElement) :
  audioRef s = Some a -> paused a = true ->
  o0 <> ReturnsUndefined ->
  Forall (fun o => rejects o = false) os ->
  let s' := clicks os (snd (autoplay_effect o0 s)) in
  exists a', audioRef s' = Some a' /\ isPlaying s' = negb (paused a').
Proof.
  intros Ha Hp H0 Hos s'.
  assert (S0 : in_sync (snd (autoplay_effect o0 s))).
  { unfold in_sync, autoplay_effect. rewrite Ha.
    destruct o0; [contradiction | reflexivity |].
    cbn. rewrite Hp. reflexivity. }
  pose proof (clicks_keep_sync os _ Hos S0) as S1. fold s' in S1.
  assert (M : forall os t, audioRef t <> None -> audioRef (clicks os t) <> None).
  { clear. intros os. induction os as [|o os IH]; intros t Ht; cbn [clicks].
    - exact Ht.
    - apply IH. unfold click, toggleMusic.
      destruct (audioRef t) as [b|]; [|contradiction].
      destruct (isPlaying t); discriminate. }
  assert (M0 : audioRef (snd (autoplay_effect o0 s)) <> None).
  { unfold autoplay_effect. rewrite Ha. destruct o0; discriminate. }
  pose proof (M os _ M0) as M1. fold s' in M1.
  unfold in_sync in S1. destruct (audioRef s') as [a'|]; [|contradiction].
  exists a'. split; [reflexivity | exact S1].
Qed.

Lemma music_button_in_sync_witness :
  audioRef mounted = Some (mkAudio 1 true) /\
  paused (mkAudio 1 true) = true /\
  Rejects "NotAllowedError" <> ReturnsUndefined /\
  Forall (fun o => rejects o = false) [Resolves; Resolves; ReturnsUndefined] /\
  (let s' := clicks [Resolves; Resolves; ReturnsUndefined]
               (snd (autoplay_effect (Rejects "NotAllowedError") mounted)) in
   exists a', audioRef s' = Some a' /\ isPlaying s' = negb (paused a')).
Proof.
  assert (H0 : Rejects "NotAllowedError" <> ReturnsUndefined) by discriminate.
  assert (Hos : Forall (fun o => rejects o = false)
                       [Resolves; Resolves; ReturnsUndefined])
    by (repeat constructor).
  split; [reflexivity|]. split; [reflexivity|]. split; [exact H0|].
  split; [exact Hos|].
  exact (music_button_in_sync (Rejects "NotAllowedError")
           [Resolves; Resolves; ReturnsUndefined] mounted (mkAudio 1 true)
           eq_refl eq_refl H0 Hos).
Defined.

(** [toggleMusic] does not wait for [play()]: when the element is
    paused and the [play()] of a click is rejected, [isPlaying] is set
    to true all the same while the element stays paused, and the next
    click pauses an element that never played. *)
Theorem rejected_play_desyncs_button
    (s : AppState) (a : HTMLAudioElement) (e : string) (o : PlayOutcome) :
  audioRef s = Some a -> isPlaying s = false -> paused a = true ->
  let s1 := click (Rejects e) s in
  isPlaying s1 = true /\ audioRef s1 = Some a /\
  isPlaying (click o s1) = false /\ audioRef (click o s1) = Some a.
Proof.
  intros Ha Hi Hp. unfold click, toggleMusic. rewrite Ha, Hi. cbn.
  destruct a as [v pz]. cbn in Hp. subst pz. repeat split.
Qed.

Lemma rejected_play_desyncs_button_witness :
  audioRef mounted = Some (mkAudio 1 true) /\
  isPlaying mounted = false /\ paused (mkAudio 1 true) = true /\
  (let s1 := click (Rejects "NotAllowedError") mounted in
   isPlaying s1 = true /\ audioRef s1 = Some (mkAudio 1 true) /\
   isPlaying (click Resolves s1) = false /\
   audioRef (click Resolves s1) = Some (mkAudio 1 true)).
Proof.
  split; [reflexivity|]. split; [reflexivity|]. split; [reflexivity|].
  exact (rejected_play_desyncs_button mounted (mkAudio 1 true)
           "NotAllowedError" Resolves eq_refl eq_refl eq_refl).
Defined.

(** The mount effect at its edges: with no audio element it changes
    nothing and builds no promise; with one it always sets the volume
    to 0.3; and on a host whose [play()] returns [undefined] it leaves
    [isPlaying] and the console as they were. *)
Theorem autoplay_edges (o : PlayOutcome) (s : AppState) :
  match audioRef s with
  | None => autoplay_effect o s = (None, s)
  | Some a =>
      exists a', audioRef (snd (autoplay_effect o s)) = Some a' /\
                 volume a' = 0.3
  end /\
  fst (autoplay_effect ReturnsUndefined s) = None /\
  isPlaying (snd (autoplay_effect ReturnsUndefined s)) = isPlaying s /\
  console (snd (autoplay_effect ReturnsUndefined s)) = console s.
Proof.
  unfold autoplay_effect.
  destruct (audioRef s) as [a|] eqn:Ha.
  - split; [|cbn; repeat split].
    destruct o; cbn; eexists; split; reflexivity.
  - split; [reflexivity|]. repeat split.
Qed.

End MusicState.

(** ** More on the rotating tree *)
Section TreeTurn.
Import THREE RotatingTree.

(** From any mounted group, a run of frames adds 0.15 rad per second of
    the time it covers to [rotation.y] and leaves position, scale and
    the other two angles alone, from whatever angle it starts and
    without ever wrapping it; and an unmounted ref stays unmounted. *)
Theorem tree_turns_at_constant_rate (deltas : list R) (o : Object3D) :
  frames deltas (Some o) =
    Some (mkObject3D (position o)
            (mkVector3 (x (rotation o))
                       (y (rotation o) + 0.15 * elapsed deltas)
                       (z (rotation o)))
            (scale o)) /\
  frames deltas None = None.
Proof.
  split; [apply frames_accumulate | apply frames_unmounted].
Qed.

(** Running two batches of frames one after the other is running them
    as one batch, and the time they cover adds up. *)
Lemma tree_frames_app (ds1 ds2 : list R) (ref : option Object3D) :
  frames (ds1 ++ ds2) ref = frames ds2 (frames ds1 ref) /\
  elapsed (ds1 ++ ds2) = elapsed ds1 + elapsed ds2.
Proof.
  split.
  - revert ref. induction ds1 as [|d ds IH]; intros ref; cbn [frames app];
      [reflexivity | apply IH].
  - induction ds1 as [|d ds IH]; cbn [elapsed app]; [|rewrite IH]; ring.
Qed.

End TreeTurn.
